(** * go-saga: the saga engine of [saga.go], embedded and verified

    The engine runs an ordered list of steps.  Every step is a pair of
    objects registered as [interface{}] and called through [reflect]; when a
    forward action returns an error the engine unwinds by calling the
    compensating functions of the steps executed so far, newest first.

    The embedding is shallow.  A method with a pointer receiver [*Saga] is a
    computation in a state-and-panic monad over a [Machine] that holds the one
    saga object, the world the user's functions act on, a logical clock for
    [time.Now] and a ghost trace of the log appends and reflective calls made
    so far.  Slice indices and lengths are natural numbers: a loop
    [for i := 0; i < n; i++] is the iteration over [seq 0 n], and the loop of
    [abort], which counts [i] down from [n - 1] while [i >= 0], is the
    iteration over the same indices in descending order. *)

From Stdlib Require Import Ascii.
From stdpp Require Import base numbers list strings.

Local Open Scope string_scope.
Local Open Scope list_scope.
Local Open Scope nat_scope.

(** ** Errors, panics and outcomes *)

(** A Go [error] is represented by its message; [option error] is a nilable
    error. *)
Definition error := string.

Inductive PanicValue :=
| PanicError (e : error)                    (* panic(err) *)
| PanicLog (msg : list string) (e : error)  (* log.Panicln(msg, err) *)
| PanicRuntime (what : string).             (* run-time panic of Go or reflect *)

Inductive Outcome (A : Type) :=
| Returned (a : A)
| Panicked (p : PanicValue).
Arguments Returned {A} a.
Arguments Panicked {A} p.

Definition obind {A B} (o : Outcome A) (k : A → Outcome B) : Outcome B :=
  match o with
  | Returned a => k a
  | Panicked p => Panicked p
  end.

(** ** reflect: types and values *)

(** An opaque [context.Context]. *)
Inductive context_Context := ContextID (id : nat).

Inductive Ty := TContext | TError | TInt | TString | TPtr.

Inductive Value :=
| VContext (c : context_Context)      (* reflect.ValueOf(ctx) *)
| VError (e : option error)   (* a value of static type error; None is nil *)
| VInt (n : Z)
| VString (s : string)
| VPtr (p : option nat).      (* a pointer that is no error; None is nil *)

Definition type_of (v : Value) : Ty :=
  match v with
  | VContext _ => TContext
  | VError _ => TError
  | VInt _ => TInt
  | VString _ => TString
  | VPtr _ => TPtr
  end.

#[global] Instance Ty_eq_dec : EqDecision Ty.
Proof. solve_decision. Defined.

(** [reflect.Value.IsNil] panics on a value whose kind cannot be nil. *)
Definition IsNil (v : Value) : Outcome bool :=
  match v with
  | VContext _ => Returned false
  | VError e => Returned (bool_decide (e = None))
  | VPtr p => Returned (bool_decide (p = None))
  | VInt _ | VString _ =>
      Panicked (PanicRuntime "reflect: call of reflect.Value.IsNil on a non-nilable Value")
  end.

(** [v.Interface().(error)]: the type assertion panics unless the value is a
    non-nil error. *)
Definition Interface_error (v : Value) : Outcome error :=
  match v with
  | VError (Some e) => Returned e
  | _ => Panicked (PanicRuntime "interface conversion: value is not error")
  end.

(** [isReturnError]: the last result, when there is one and it is not nil. *)
Definition isReturnError (result : list Value) : Outcome (option error) :=
  if bool_decide (0 < length result) then
    match result !! (length result - 1) with
    | Some lastv =>
        obind (IsNil lastv) (λ isnil,
          if negb isnil then
            obind (Interface_error lastv) (λ e, Returned (Some e))
          else Returned None)
    | None => Panicked (PanicRuntime "index out of range")
    end
  else Returned None.

(** [addParams]: the loop appends [returned[i]] for [i] from [0] to
    [len(returned) - 2]; the index is in range by the loop bound, so the
    default of [nth] is never read. *)
Definition addParams (values returned : list Value) : list Value :=
  if bool_decide (1 < length returned) then
    foldl (λ vs i, vs ++ [nth i returned (VError None)]) values
          (seq 0 (length returned - 1))
  else values.

(** ** The log and its store *)

(** Modelled from the spec: the [LogType] constants, the [Log] record and the
    [Store] interface are declared outside [saga.go]; section 6 of the
    specification lists the event kinds, the fields of an event and the two
    operations of a store.  [StepNumber] and [StepName] are pointers in the
    code ([&i], [&saga.steps[i].Name]) and absent on the events that carry no
    step. *)
Inductive LogType :=
| LogTypeStartSaga
| LogTypeSagaStepExec
| LogTypeSagaStepCompensate
| LogTypeSagaAbort
| LogTypeSagaComplete.

Record Log := {
  Log_ExecutionID : string;
  Log_Name : string;
  Time : nat;
  Log_Type : LogType;
  StepNumber : option nat;
  StepName : option string
}.

Class Store (S : Type) := {
  AppendLog : Log → S → option error * S;
  GetAllLogsByExecutionID : string → S → list Log * option error
}.

(** ** RandString *)

(** [RandString] draws ten letters; [Intn k] stands for the [k]-th draw of
    [rand.Intn(len(letters))]. *)
Definition letters : list Ascii.ascii :=
  String.list_ascii_of_string "abcdefghijklmnopqrstuvwxyzABCDEFGHIJKLMNOPQRSTUVWXYZ".

Definition RandString (Intn : nat → nat) : string :=
  String.string_of_list_ascii
    ((λ k, nth (Intn k `mod` length letters) letters "a"%char) <$> seq 0 10).

(** ** The engine *)

Section Engine.
Context {W : Type} {S : Type} `{!Store S}.

(** A [reflect.Value] of kind [Func]: the types of its parameters and what
    a call does to the world. *)
Record FuncValue := {
  fn_in : list Ty;
  fn_body : list Value → W → list Value * W
}.

(** What a step may hold in an [interface{}] field. *)
Inductive Obj :=
| ObjNil
| ObjString (s : string)
| ObjInt (n : Z)
| ObjFunc (f : FuncValue).

Inductive StepOptions := mkStepOptions.

Record Step := {
  Step_Name : string;
  Func : Obj;
  CompensateFunc : Obj;
  Options : option StepOptions
}.

Record Result := { Err : option error }.

Record Saga := {
  ExecutionID : string;
  Name : string;
  returnedValuesFromFunc : list (list Value);
  toCompensate : list FuncValue;
  aborted : bool;
  err : option error;
  steps : list Step;
  ctx : context_Context;
  logStore : S
}.

Definition NewSaga (c : context_Context) (name : string) (store : S)
    (Intn : nat → nat) : Saga :=
  {| ExecutionID := RandString Intn; Name := name;
     returnedValuesFromFunc := []; toCompensate := [];
     aborted := false; err := None; steps := [];
     ctx := c; logStore := store |}.

(** *** Ghost trace *)

Inductive Site := Forward (i : nat) | Compensate (i : nat).

Inductive Event :=
| EvAppend (l : Log) (r : option error)
| EvCall (s : Site) (callee : FuncValue) (params results : list Value).

Record Machine := {
  saga : Saga;
  world : W;
  clock : nat;
  trace : list Event
}.

Definition boot (s : Saga) (w : W) (t0 : nat) : Machine :=
  {| saga := s; world := w; clock := t0; trace := [] |}.

(** *** The monad *)

Definition M (A : Type) : Type := Machine → Outcome A * Machine.

#[global] Instance M_ret : MRet M := λ A a m, (Returned a, m).
#[global] Instance M_bind : MBind M := λ A B k c m,
  match c m with
  | (Returned a, m') => k a m'
  | (Panicked p, m') => (Panicked p, m')
  end.

Definition panic {A} (p : PanicValue) : M A := λ m, (Panicked p, m).

Definition lift {A} (o : Outcome A) : M A := λ m, (o, m).

Definition get_saga : M Saga := λ m, (Returned (saga m), m).

Definition modify_saga (f : Saga → Saga) : M unit := λ m,
  (Returned (),
   {| saga := f (saga m); world := world m; clock := clock m;
      trace := trace m |}).

Definition time_Now : M nat := λ m,
  (Returned (clock m),
   {| saga := saga m; world := world m; clock := Datatypes.S (clock m);
      trace := trace m |}).

(** Indexing a slice panics out of range. *)
Definition index {A} (l : list A) (i : nat) : M A :=
  match l !! i with
  | Some x => mret x
  | None => panic (PanicRuntime "index out of range")
  end.

Fixpoint for_ (l : list nat) (f : nat → M unit) : M unit :=
  match l with
  | [] => mret ()
  | i :: l' => f i ;; for_ l' f
  end.

(** Field updates of the saga object. *)
Definition set_steps (v : list Step) (s : Saga) : Saga :=
  {| ExecutionID := ExecutionID s; Name := Name s;
     returnedValuesFromFunc := returnedValuesFromFunc s;
     toCompensate := toCompensate s; aborted := aborted s; err := err s;
     steps := v; ctx := ctx s; logStore := logStore s |}.

Definition set_returnedValuesFromFunc (v : list (list Value)) (s : Saga) : Saga :=
  {| ExecutionID := ExecutionID s; Name := Name s;
     returnedValuesFromFunc := v;
     toCompensate := toCompensate s; aborted := aborted s; err := err s;
     steps := steps s; ctx := ctx s; logStore := logStore s |}.

Definition set_toCompensate (v : list FuncValue) (s : Saga) : Saga :=
  {| ExecutionID := ExecutionID s; Name := Name s;
     returnedValuesFromFunc := returnedValuesFromFunc s;
     toCompensate := v; aborted := aborted s; err := err s;
     steps := steps s; ctx := ctx s; logStore := logStore s |}.

Definition set_aborted (v : bool) (s : Saga) : Saga :=
  {| ExecutionID := ExecutionID s; Name := Name s;
     returnedValuesFromFunc := returnedValuesFromFunc s;
     toCompensate := toCompensate s; aborted := v; err := err s;
     steps := steps s; ctx := ctx s; logStore := logStore s |}.

Definition set_err (v : option error) (s : Saga) : Saga :=
  {| ExecutionID := ExecutionID s; Name := Name s;
     returnedValuesFromFunc := returnedValuesFromFunc s;
     toCompensate := toCompensate s; aborted := aborted s; err := v;
     steps := steps s; ctx := ctx s; logStore := logStore s |}.

Definition set_logStore (v : S) (s : Saga) : Saga :=
  {| ExecutionID := ExecutionID s; Name := Name s;
     returnedValuesFromFunc := returnedValuesFromFunc s;
     toCompensate := toCompensate s; aborted := aborted s; err := err s;
     steps := steps s; ctx := ctx s; logStore := v |}.

(** [saga.logStore.AppendLog(l)]: the store takes the event and answers
    with an error or nil; the append is noted on the trace. *)
Definition logStore_AppendLog (l : Log) : M (option error) := λ m,
  let r := AppendLog l (logStore (saga m)) in
  (Returned r.1,
   {| saga := set_logStore r.2 (saga m); world := world m;
      clock := clock m; trace := trace m ++ [EvAppend l r.1] |}).

(** [reflect.Value.Call]: panics unless the arguments fit the parameter
    types; otherwise the function runs on the world and the call is noted
    on the trace with its arguments and results. *)
Definition Call (site : Site) (f : FuncValue) (params : list Value)
    : M (list Value) := λ m,
  if decide (type_of <$> params = fn_in f) then
    let r := fn_body f params (world m) in
    (Returned r.1,
     {| saga := saga m; world := r.2; clock := clock m;
        trace := trace m ++ [EvCall site f params r.1] |})
  else
    (Panicked (PanicRuntime "reflect: Call with mismatched arguments"), m).

(** *** saga.go *)

Definition checkErr (e : option error) (msg : list string) : M unit :=
  match e with
  | Some e' => panic (PanicLog msg e')
  | None => mret ()
  end.

Definition getFuncValue (obj : Obj) : M FuncValue :=
  match obj with
  | ObjFunc funcValue =>
      match fn_in funcValue with
      | TContext :: _ => mret ()
      | _ => checkErr (Some "first argument must use context.ctx") []
      end ;;
      mret funcValue
  | _ =>
      checkErr (Some "registered object must be a func") [] ;;
      panic (PanicRuntime "reflect: NumIn of non-func type")
  end.

Definition AddStep (step : Step) : M unit :=
  (* FIXME check that f and compensate are correct and return an error *)
  modify_saga (λ s, set_steps (steps s ++ [step]) s).

Definition compensateStep (i : nat) : M unit :=
  s ← get_saga;
  now ← time_Now;
  st ← index (steps s) i;
  e ← logStore_AppendLog
        {| Log_ExecutionID := ExecutionID s; Log_Name := Name s;
           Time := now; Log_Type := LogTypeSagaStepCompensate;
           StepNumber := Some i; StepName := Some (Step_Name st) |};
  checkErr e [] ;;
  let params := [] ++ [VContext (ctx s)] in
  returned ← index (returnedValuesFromFunc s) i;
  let params := addParams params returned in
  compensateFunc ← index (toCompensate s) i;
  res ← Call (Compensate i) compensateFunc params;
  r ← lift (isReturnError res);
  match r with
  | Some e' => panic (PanicError e')
  | None => mret ()
  end.

Definition abort : M unit :=
  s ← get_saga;
  let stepsToCompensate := length (toCompensate s) in
  now ← time_Now;
  e ← logStore_AppendLog
        {| Log_ExecutionID := ExecutionID s; Log_Name := Name s;
           Time := now; Log_Type := LogTypeSagaAbort;
           StepNumber := Some stepsToCompensate; StepName := None |};
  checkErr e [] ;;
  modify_saga (set_aborted true) ;;
  for_ (reverse (seq 0 stepsToCompensate)) compensateStep.

Definition execStep (i : nat) : M unit :=
  s ← get_saga;
  if aborted s then mret ()
  else
    now ← time_Now;
    st ← index (steps s) i;
    e ← logStore_AppendLog
          {| Log_ExecutionID := ExecutionID s; Log_Name := Name s;
             Time := now; Log_Type := LogTypeSagaStepExec;
             StepNumber := Some i; StepName := Some (Step_Name st) |};
    checkErr e [] ;;
    let f := Func st in
    let compensate := CompensateFunc st in
    let params := [VContext (ctx s)] in
    fv ← getFuncValue f;
    resp ← Call (Forward i) fv params;
    cv ← getFuncValue compensate;
    modify_saga (λ s, set_toCompensate (toCompensate s ++ [cv]) s) ;;
    modify_saga (λ s, set_returnedValuesFromFunc
                        (returnedValuesFromFunc s ++ [resp]) s) ;;
    r ← lift (isReturnError resp);
    match r with
    | Some e' => modify_saga (set_err (Some e')) ;; abort
    | None => mret ()
    end.

(** The loop of [Play] runs [i] from [0] while [i < len(saga.steps)];
    nothing that runs inside it changes [saga.steps], so the bound is the
    length read on entry. *)
Definition Play : M Result :=
  s ← get_saga;
  now ← time_Now;
  e ← logStore_AppendLog
        {| Log_ExecutionID := ExecutionID s; Log_Name := Name s;
           Time := now; Log_Type := LogTypeStartSaga;
           StepNumber := None; StepName := None |};
  checkErr e [] ;;
  for_ (seq 0 (length (steps s))) execStep ;;
  s ← get_saga;
  now ← time_Now;
  e ← logStore_AppendLog
        {| Log_ExecutionID := ExecutionID s; Log_Name := Name s;
           Time := now; Log_Type := LogTypeSagaComplete;
           StepNumber := None; StepName := None |};
  checkErr e [] ;;
  s ← get_saga;
  mret {| Err := err s |}.

End Engine.

(** ** Concrete stores and test doubles *)

(** Modelled from the spec: the in-memory store behind [New()] in the tests is
    not part of [saga.go].  It keeps the events in append order, never fails
    an append, and answers a query for an identifier without events with a
    NotFound-class error (section 6). *)
Definition MemStore := list Log.

#[global] Instance MemStore_Store : Store MemStore := {|
  AppendLog l st := (None, st ++ [l]);
  GetAllLogsByExecutionID id st :=
    match filter (λ l, Log_ExecutionID l = id) st with
    | [] => ([], Some "not found")
    | ls => (ls, None)
    end
|}.

(** A store that accepts [budget] appends and fails every later one. *)
Record FlakyStore := { budget : nat; kept : list Log }.

#[global] Instance FlakyStore_Store : Store FlakyStore := {|
  AppendLog l st :=
    match budget st with
    | 0 => (Some "log store unavailable", st)
    | Datatypes.S b => (None, {| budget := b; kept := kept st ++ [l] |})
    end;
  GetAllLogsByExecutionID id st :=
    match filter (λ l, Log_ExecutionID l = id) (kept st) with
    | [] => ([], Some "not found")
    | ls => (ls, None)
    end
|}.

(** The [mock] of the tests: the world is the list of the call counters, and
    mock number [id] bumps its counter and returns its [err] field. *)
Definition Counters := list nat.

Definition mock_f (id : nat) (e : option error) : @Obj Counters :=
  ObjFunc {| fn_in := [TContext];
             fn_body := λ _ w, ([VError e], alter Datatypes.S id w) |}.

(** A function of one parameter, the context, that leaves the world alone
    and returns the error [e]: [errFunc] and the failing compensations of
    the tests. *)
Definition const_f (e : option error) : @Obj Counters :=
  ObjFunc {| fn_in := [TContext]; fn_body := λ _ w, ([VError e], w) |}.

(** [f1] and [f2] of [TestReturnsError]: the forward function returns a
    string and an error, the compensating function takes the string. *)
Definition returns_hello_fn : @FuncValue Counters :=
  {| fn_in := [TContext];
     fn_body := λ _ w, ([VString "hello"; VError (Some "some error")],
                        alter Datatypes.S 0 w) |}.

Definition takes_string_fn : @FuncValue Counters :=
  {| fn_in := [TContext; TString];
     fn_body := λ _ w, ([VError None], alter Datatypes.S 1 w) |}.

Definition returns_hello : @Obj Counters := ObjFunc returns_hello_fn.

Definition takes_string : @Obj Counters := ObjFunc takes_string_fn.

Definition mkStep (name : string) (f g : @Obj Counters) : @Step Counters :=
  {| Step_Name := name; Func := f; CompensateFunc := g; Options := None |}.

(** A new saga on an empty in-memory store, with the steps registered through
    [AddStep] one after the other, ready for [Play]. *)
Definition registered {W S : Type} (store : S) (sts : list (@Step W)) (w : W)
    : @Machine W S :=
  (foldl (λ m st, (AddStep st m).2)
         (boot (NewSaga (ContextID 0) "hello" store (λ _, 0)) w 0) sts).

(** [TestSuccessfullyExecTwoSteps]. *)
Definition two_steps_ok : @Machine Counters MemStore :=
  registered [] [mkStep "first" (mock_f 0 None) (mock_f 2 None);
                 mkStep "second" (mock_f 1 None) (mock_f 2 None)] [0; 0; 0].

(** [TestCompensateCalledTwiceForTwoSteps]. *)
Definition second_step_fails : @Machine Counters MemStore :=
  registered [] [mkStep "first" (mock_f 0 None) (mock_f 2 None);
                 mkStep "second" (mock_f 1 (Some "hello")) (mock_f 2 None)]
             [0; 0; 0].

(** [TestReturnsError]. *)
Definition returns_error : @Machine Counters MemStore :=
  registered [] [mkStep "first" returns_hello takes_string] [0; 0].

(** [TestCompensateReturnsError]. *)
Definition compensations_fail : @Machine Counters MemStore :=
  registered []
    [mkStep "first" (mock_f 0 None) (const_f (Some "compensate error 1"));
     mkStep "second" (const_f (Some "some error"))
            (const_f (Some "compensate error 2"))] [0].

(** One step that fails and whose compensation fails too. *)
Definition single_compensation_fails : @Machine Counters MemStore :=
  registered []
    [mkStep "single" (const_f (Some "some error"))
            (const_f (Some "compensate error 1"))] [0].

(** Three steps; the second fails and its compensation fails. *)
Definition middle_step_fails : @Machine Counters MemStore :=
  registered []
    [mkStep "first" (mock_f 0 None) (mock_f 3 None);
     mkStep "second" (mock_f 1 (Some "some error"))
            (const_f (Some "compensate error 2"));
     mkStep "third" (mock_f 2 None) (mock_f 3 None)] [0; 0; 0; 0].

(** The first registration of [TestAddStep]: a string as forward action. *)
Definition hello_step : @Step Counters :=
  mkStep "first" (ObjString "hello") (mock_f 0 None).

Definition new_saga : @Machine Counters MemStore := registered [] [] [0].

(** A saga whose aborted flag is set. *)
Definition aborted_saga : @Machine Counters MemStore :=
  (modify_saga (set_aborted true) two_steps_ok).2.

(** A run on a store that fails the third append. *)
Definition store_breaks : @Machine Counters FlakyStore :=
  registered {| budget := 2; kept := [] |}
    [mkStep "first" (mock_f 0 None) (mock_f 2 None);
     mkStep "second" (mock_f 1 None) (mock_f 2 None)] [0; 0; 0].

(** A step whose forward function returns nothing. *)
Definition returns_nothing : @Machine Counters MemStore :=
  registered []
    [mkStep "silent"
       (ObjFunc {| fn_in := [TContext]; fn_body := λ _ w, ([], w) |})
       (mock_f 0 None)] [0].

(** The second registration of [TestAddStep]: an int as compensating
    action. *)
Definition int_compensation : @Machine Counters MemStore :=
  registered [] [mkStep "first" (mock_f 0 None) (ObjInt 25)] [0].

(** A saga about to compensate its only step, whose forward function returned
    a string and an error while its compensating function takes the context
    alone. *)
Definition context_only_fn : @FuncValue Counters :=
  {| fn_in := [TContext]; fn_body := λ _ w, ([VError None], w) |}.

Definition mismatched_compensation : @Machine Counters MemStore :=
  (modify_saga
     (λ s, set_returnedValuesFromFunc
             [[VString "hello"; VError (Some "some error")]]
             (set_toCompensate [context_only_fn] s))
     (registered [] [mkStep "first" returns_hello (ObjFunc context_only_fn)]
                 [0; 0])).2.

(** A step whose forward function takes a string besides the context. *)
Definition forward_takes_string : @Machine Counters MemStore :=
  registered [] [mkStep "first" takes_string (mock_f 0 None)] [0; 0].

(** A forward function that returns a nil error while counter [dep] is zero
    and the error [e] once it is not, and bumps counter [id]: what it answers
    depends on the world it is called in. *)
Definition gated_f (id dep : nat) (e : error) : @Obj Counters :=
  ObjFunc {| fn_in := [TContext];
             fn_body := λ _ w,
               ([VError (if decide (w !! dep = Some 0) then None else Some e)],
                alter Datatypes.S id w) |}.

(** Two steps that succeed on their first call only: each forward function
    fails once its own counter is set. *)
Definition succeeds_once : @Machine Counters MemStore :=
  registered [] [mkStep "first" (gated_f 0 0 "called twice") (mock_f 2 None);
                 mkStep "second" (gated_f 1 1 "called twice") (mock_f 2 None)]
             [0; 0; 0].

(** Two steps of which the second fails only after the first has run. *)
Definition fails_after_first : @Machine Counters MemStore :=
  registered [] [mkStep "first" (mock_f 0 None) (mock_f 2 None);
                 mkStep "second" (gated_f 1 0 "hello") (mock_f 2 None)]
             [0; 0; 0].

(** ** Observing a run *)

Section Observations.
Context {W : Type} {S : Type} `{!Store S}.

#[local] Abbreviation Machine := (@Machine W S).
#[local] Abbreviation M := (@M W S).

(** The reflective calls of a trace, oldest first: the call site and the
    function called. *)
Definition calls (t : list (@Event W)) : list (Site * @FuncValue W) :=
  omap (λ ev, match ev with
              | EvCall site callee _ _ => Some (site, callee)
              | EvAppend _ _ => None
              end) t.

(** The reflective calls of a trace with what was passed and returned. *)
Definition invocations (t : list (@Event W))
    : list (Site * list Value * list Value) :=
  omap (λ ev, match ev with
              | EvCall site _ params results => Some (site, params, results)
              | EvAppend _ _ => None
              end) t.

(** The events handed to the store, oldest first. *)
Definition emitted (t : list (@Event W)) : list Log :=
  omap (λ ev, match ev with
              | EvAppend l _ => Some l
              | EvCall _ _ _ _ => None
              end) t.

Definition log_types (t : list (@Event W)) : list LogType :=
  Log_Type <$> emitted t.

Definition failed_append (ev : @Event W) : bool :=
  match ev with EvAppend _ (Some _) => true | _ => false end.

(** Weakest precondition of a computation for a postcondition on normal
    return and one on panic. *)
Definition wp {A} (c : M A) (Q : A → Machine → Prop)
    (E : PanicValue → Machine → Prop) (m : Machine) : Prop :=
  match c m with
  | (Returned a, m') => Q a m'
  | (Panicked p, m') => E p m'
  end.

(** What a signature must look like for the reflective calls of the engine
    to go through: the forward function takes the context alone, the
    compensating function takes the context first. *)
Definition takes_context_only (f : @FuncValue W) : Prop :=
  fn_in f = [TContext].

Definition takes_context_first (f : @FuncValue W) : Prop :=
  ∃ rest, fn_in f = TContext :: rest.

(** The event that [execStep i] hands to the store. *)
Definition StepExec_log (s : @Saga W S) (now i : nat) (st : @Step W) : Log :=
  {| Log_ExecutionID := ExecutionID s; Log_Name := Name s;
     Time := now; Log_Type := LogTypeSagaStepExec;
     StepNumber := Some i; StepName := Some (Step_Name st) |}.

(** What a run left untouched: the saga's error and aborted flag, and no
    SagaAbort among the events it added to the trace. *)
Definition quiet (m m1 : Machine) : Prop :=
  err (saga m1) = err (saga m) ∧
  aborted (saga m1) = aborted (saga m) ∧
  ∃ evs, trace m1 = trace m ++ evs ∧ LogTypeSagaAbort ∉ log_types evs.

(** The machine after [execStep i] has logged, called the forward function
    and filled the execution record, before it looks at the error. *)
Definition after_forward (m : Machine) (i : nat) (st : @Step W)
    (f g : @FuncValue W) (store' : S) (res : list Value) (w' : W) : Machine :=
  {| saga :=
       set_returnedValuesFromFunc (returnedValuesFromFunc (saga m) ++ [res])
         (set_toCompensate (toCompensate (saga m) ++ [g])
            (set_logStore store' (saga m)));
     world := w';
     clock := Datatypes.S (clock m);
     trace := trace m ++
       [EvAppend (StepExec_log (saga m) (clock m) i st) None;
        EvCall (Forward i) f [VContext (ctx (saga m))] res] |}.

(** The event that [compensateStep i] hands to the store. *)
Definition StepCompensate_log (s : @Saga W S) (now i : nat) (st : @Step W) : Log :=
  {| Log_ExecutionID := ExecutionID s; Log_Name := Name s;
     Time := now; Log_Type := LogTypeSagaStepCompensate;
     StepNumber := Some i; StepName := Some (Step_Name st) |}.

(** The machine after a compensation that went through. *)
Definition after_compensate (m : Machine) (i : nat) (st : @Step W)
    (g : @FuncValue W) (store' : S) (params res : list Value) (w' : W)
    : Machine :=
  {| saga := set_logStore store' (saga m);
     world := w';
     clock := Datatypes.S (clock m);
     trace := trace m ++
       [EvAppend (StepCompensate_log (saga m) (clock m) i st) None;
        EvCall (Compensate i) g params res] |}.

(** A forward call that passes the context [c] and nothing else. *)
Definition context_only (c : context_Context) (ev : @Event W) : Prop :=
  match ev with
  | EvCall (Forward _) _ params _ => params = [VContext c]
  | _ => True
  end.

(** Since machine [m0], the context of the saga is the same and every forward
    call added to the trace passed that context alone. *)
Definition forwards_pass_context (m0 m : Machine) : Prop :=
  ctx (saga m) = ctx (saga m0) ∧
  ∃ evs, trace m = trace m0 ++ evs ∧
         Forall (context_only (ctx (saga m0))) evs.

(** No append failed among the events. *)
Definition all_appended (evs : list (@Event W)) : Prop :=
  Forall (λ ev, failed_append ev = false) evs.

(** Since machine [m0] every append went through. *)
Definition appends_ok (m0 m : Machine) : Prop :=
  ∃ evs, trace m = trace m0 ++ evs ∧ all_appended evs.

(** A panic leaves the trace in one of two shapes: no append failed since
    [m0], or the failed append is the last event and the panic is the
    [log.Panicln] of its error. *)
Definition stopped_at_failure (m0 : Machine) (p : PanicValue) (m : Machine)
    : Prop :=
  ∃ evs, trace m = trace m0 ++ evs ∧
    (all_appended evs ∨
     ∃ pre l e, evs = pre ++ [EvAppend l (Some e)] ∧ all_appended pre ∧
                p = PanicLog [] e).

(** The output values of a call: all results but the last. *)
Definition outputs (results : list Value) : list Value :=
  take (length results - 1) results.

(** Every compensating call of the trace is the call, for some step [i] of
    [sts], of that step's compensating function on the context followed by
    the outputs that the step's forward function returned earlier in the
    trace. *)
Definition round_trip (sts : list (@Step W)) (c : context_Context)
    (t : list (@Event W)) : Prop :=
  ∀ i g params results',
    EvCall (Compensate i) g params results' ∈ t →
    ∃ st f results,
      sts !! i = Some st ∧ Func st = ObjFunc f ∧ CompensateFunc st = ObjFunc g ∧
      EvCall (Forward i) f [VContext c] results ∈ t ∧
      params = VContext c :: outputs results.

(** The execution record agrees with the steps and with the trace: entry [k]
    holds the compensating function of step [k] and the results of the
    forward call of step [k]. *)
Definition record_in_step (sts : list (@Step W)) (c : context_Context)
    (m : Machine) : Prop :=
  steps (saga m) = sts ∧ ctx (saga m) = c ∧
  length (toCompensate (saga m)) = length (returnedValuesFromFunc (saga m)) ∧
  ∀ k rs g,
    returnedValuesFromFunc (saga m) !! k = Some rs →
    toCompensate (saga m) !! k = Some g →
    ∃ st f,
      sts !! k = Some st ∧ Func st = ObjFunc f ∧ CompensateFunc st = ObjFunc g ∧
      EvCall (Forward k) f [VContext c] rs ∈ trace m.

(** Invariant of the unwind. *)
Definition unwinding (sts : list (@Step W)) (c : context_Context)
    (m : Machine) : Prop :=
  record_in_step sts c m ∧ round_trip sts c (trace m).

(** Invariant of the forward loop before iteration [i]. *)
Definition running (sts : list (@Step W)) (c : context_Context) (i : nat)
    (m : Machine) : Prop :=
  unwinding sts c m ∧
  (aborted (saga m) = false → length (returnedValuesFromFunc (saga m)) = i).

(** The call that the engine makes for the forward action of step [i], and
    the one it makes for its compensating action. *)
Definition forward_call (i : nat) (st : @Step W) : option (Site * @FuncValue W) :=
  match Func st with
  | ObjFunc f => Some (Forward i, f)
  | _ => None
  end.

Definition compensate_call (i : nat) (st : @Step W)
    : option (Site * @FuncValue W) :=
  match CompensateFunc st with
  | ObjFunc g => Some (Compensate i, g)
  | _ => None
  end.

(** A step whose two objects are functions that [getFuncValue] accepts and
    whose forward function can be called on the context alone. *)
Definition callable_step (st : @Step W) : Prop :=
  ∃ f g, Func st = ObjFunc f ∧ takes_context_only f ∧
         CompensateFunc st = ObjFunc g ∧ takes_context_first g.

(** The forward action of the step returns a nil error, whatever the world. *)
Definition forward_succeeds (st : @Step W) : Prop :=
  ∀ f params w,
    Func st = ObjFunc f → isReturnError (fn_body f params w).1 = Returned None.

(** Invariant of the forward loop of [Play] after [k] successful steps of a
    run that started with an empty trace. *)
Definition forward_progress (sts : list (@Step W)) (k : nat) (m : Machine)
    : Prop :=
  aborted (saga m) = false ∧ err (saga m) = None ∧ steps (saga m) = sts ∧
  Some <$> calls (trace m) = imap forward_call (take k sts) ∧
  log_types (trace m) =
    LogTypeStartSaga :: replicate k LogTypeSagaStepExec.

(** Two machines whose sagas differ in the log store at most. *)
Definition same_saga (m m' : Machine) : Prop :=
  steps (saga m') = steps (saga m) ∧ ctx (saga m') = ctx (saga m) ∧
  toCompensate (saga m') = toCompensate (saga m) ∧
  returnedValuesFromFunc (saga m') = returnedValuesFromFunc (saga m) ∧
  aborted (saga m') = aborted (saga m) ∧ err (saga m') = err (saga m).

(** The saga after the unwind that followed the failure of step [i] with
    error [e]: what was called and what was emitted, up to the last
    compensation. *)
Definition unwound (sts : list (@Step W)) (i : nat) (e : error) (m : Machine)
    : Prop :=
  aborted (saga m) = true ∧ err (saga m) = Some e ∧ steps (saga m) = sts ∧
  Some <$> calls (trace m) =
    imap forward_call (take (Datatypes.S i) sts) ++
    reverse (imap compensate_call (take (Datatypes.S i) sts)) ∧
  log_types (trace m) =
    LogTypeStartSaga :: replicate (Datatypes.S i) LogTypeSagaStepExec ++
    LogTypeSagaAbort :: replicate (Datatypes.S i) LogTypeSagaStepCompensate.

(** Invariant of the forward loop of [Play] before iteration [k] when step
    [i] is the one that fails. *)
Definition unwind_progress (sts : list (@Step W)) (c : context_Context)
    (i : nat) (e : error) (k : nat) (m : Machine) : Prop :=
  (k ≤ i ∧ forward_progress sts k m ∧ record_in_step sts c m ∧
   length (toCompensate (saga m)) = k) ∨
  (i < k ∧ unwound sts i e m).

(** What a run without failure shows of an event: the store took it, and a
    forward call returned a nil error. *)
Definition went_well (ev : @Event W) : Prop :=
  match ev with
  | EvAppend _ r => r = None
  | EvCall (Forward _) _ _ results => isReturnError results = Returned None
  | EvCall (Compensate _) _ _ _ => True
  end.

(** What a run that fails at step [i] with the error [e] and unwinds shows
    of an event: the store took it; a forward call of a step before [i]
    returned a nil error, that of step [i] the error [e], and the outputs
    fit the parameters of the step's compensating function; a compensating
    call returned a nil error. *)
Definition unwinds_well (sts : list (@Step W)) (i : nat) (e : error)
    (ev : @Event W) : Prop :=
  match ev with
  | EvAppend _ r => r = None
  | EvCall (Forward j) _ _ results =>
      (j < i → isReturnError results = Returned None) ∧
      (j = i → isReturnError results = Returned (Some e)) ∧
      (∀ st g, sts !! j = Some st → CompensateFunc st = ObjFunc g →
         fn_in g = TContext :: (type_of <$> outputs results))
  | EvCall (Compensate _) _ _ results => isReturnError results = Returned None
  end.

(** Some event of the trace is not what [ok] expects. *)
Definition spoiled (ok : @Event W → Prop) (m : Machine) : Prop :=
  ¬ Forall ok (trace m).

(** [P] holds of the machine and every event so far is what [ok] expects,
    unless some event is not. *)
Definition checked (ok : @Event W → Prop) (P : Machine → Prop) (m : Machine)
    : Prop :=
  (P m ∧ Forall ok (trace m)) ∨ spoiled ok m.

(** What an event of the trace is, without its payload: an event handed to
    the store, with its type and step number, or a reflective call, with its
    site. *)
Inductive Kind :=
| KLog (t : LogType) (step : option nat)
| KCall (site : Site).

Definition kind_of (ev : @Event W) : Kind :=
  match ev with
  | EvAppend l _ => KLog (Log_Type l) (StepNumber l)
  | EvCall site _ _ _ => KCall site
  end.

Definition kinds (t : list (@Event W)) : list Kind := kind_of <$> t.

(** What [execStep i] adds to the trace when the step goes through, and what
    [compensateStep j] adds. *)
Definition exec_pair (i : nat) : list Kind :=
  [KLog LogTypeSagaStepExec (Some i); KCall (Forward i)].

Definition comp_pair (j : nat) : list Kind :=
  [KLog LogTypeSagaStepCompensate (Some j); KCall (Compensate j)].

(** The forward steps [0 .. a-1], and the compensations [a-1] down to [b]. *)
Definition exec_pairs (a : nat) : list Kind := seq 0 a ≫= exec_pair.

Definition comp_pairs (b a : nat) : list Kind :=
  reverse (seq b (a - b)) ≫= comp_pair.

(** What [abort] adds to the trace when [a] steps are on the record. *)
Definition unwind_script (a : nat) : list Kind :=
  KLog LogTypeSagaAbort (Some a) :: comp_pairs 0 a.

(** The two complete runs of [Play]: [n] steps without failure, and a failure
    at the [a]-th step followed by the unwind. *)
Definition script_ok (n : nat) : list Kind :=
  KLog LogTypeStartSaga None :: exec_pairs n ++ [KLog LogTypeSagaComplete None].

Definition script_abort (a : nat) : list Kind :=
  KLog LogTypeStartSaga None :: exec_pairs a ++ unwind_script a ++
  [KLog LogTypeSagaComplete None].

(** Invariant of the forward loop of [Play] before iteration [i], for the
    kinds of the events: no step failed so far, or the step [a - 1] failed
    and the unwind is over. *)
Definition play_phase (i : nat) (m : Machine) : Prop :=
  (aborted (saga m) = false ∧ err (saga m) = None ∧
   length (toCompensate (saga m)) = i ∧
   kinds (trace m) = KLog LogTypeStartSaga None :: exec_pairs i) ∨
  (aborted (saga m) = true ∧
   ∃ a e, 0 < a ≤ i ∧ err (saga m) = Some e ∧
     kinds (trace m) =
       KLog LogTypeStartSaga None :: exec_pairs a ++ unwind_script a).

(** A run that panicked stopped somewhere in one of the two scripts. *)
Definition cut_short (n : nat) (m : Machine) : Prop :=
  kinds (trace m) `prefix_of` script_ok n ∨
  ∃ a, 0 < a ≤ n ∧ kinds (trace m) `prefix_of` script_abort a.

(** What an event added by a run on the saga of [m0] must look like: an
    event handed to the store carries the identifier and the name of the
    saga, a step event carries the index and the name of a registered step,
    the abort event a number of steps and no name, the first and the last
    event neither; a forward call at site [i] calls the function registered
    as the forward action of step [i]. *)
Definition stamped (m0 : Machine) (ev : @Event W) : Prop :=
  match ev with
  | EvAppend l _ =>
      Log_ExecutionID l = ExecutionID (saga m0) ∧
      Log_Name l = Name (saga m0) ∧
      match Log_Type l with
      | LogTypeSagaStepExec | LogTypeSagaStepCompensate =>
          ∃ i st, StepNumber l = Some i ∧ steps (saga m0) !! i = Some st ∧
                  StepName l = Some (Step_Name st)
      | LogTypeSagaAbort => (∃ k, StepNumber l = Some k) ∧ StepName l = None
      | LogTypeStartSaga | LogTypeSagaComplete =>
          StepNumber l = None ∧ StepName l = None
      end
  | EvCall (Forward i) f _ _ =>
      ∃ st, steps (saga m0) !! i = Some st ∧ Func st = ObjFunc f
  | EvCall (Compensate _) _ _ _ => True
  end.

(** Since machine [m0] the identifier, the name, the steps and the context of
    the saga are the same, and every event added to the trace is stamped. *)
Definition identity_kept (m0 m : Machine) : Prop :=
  ExecutionID (saga m) = ExecutionID (saga m0) ∧
  Name (saga m) = Name (saga m0) ∧
  steps (saga m) = steps (saga m0) ∧
  ctx (saga m) = ctx (saga m0) ∧
  ∃ evs, trace m = trace m0 ++ evs ∧ Forall (stamped m0) evs.

(** The store after it took the events [ls] one after the other. *)
Definition fed (st : S) (ls : list Log) : S :=
  foldl (λ st' l, (AppendLog l st').2) st ls.

(** Since machine [m0] the store of the saga took the events that the trace
    shows, in order, and nothing else. *)
Definition store_follows (m0 m : Machine) : Prop :=
  ∃ evs, trace m = trace m0 ++ evs ∧
         logStore (saga m) = fed (logStore (saga m0)) (emitted evs).

(** What an event does to the world: a call runs the function called on
    the arguments it was given, an append does nothing. *)
Definition call_effect (w : W) (ev : @Event W) : W :=
  match ev with
  | EvCall _ f params _ => (fn_body f params w).2
  | EvAppend _ _ => w
  end.

(** Since machine [m0] the world changed by the calls of the trace, in
    order, and by nothing else. *)
Definition world_follows (m0 m : Machine) : Prop :=
  ∃ evs, trace m = trace m0 ++ evs ∧
         world m = foldl call_effect (world m0) evs.

End Observations.

(** ** Symbolic execution *)

Section Execution.
Context {W : Type} {S : Type} `{!Store S}.

#[local] Abbreviation Machine := (@Machine W S).
#[local] Abbreviation M := (@M W S).

Implicit Types (m : Machine) (E : PanicValue → Machine → Prop).

Lemma wp_ret {A} (a : A) (Q : A → Machine → Prop) E m :
  wp (mret a) Q E m = Q a m.
Proof. reflexivity. Qed.

Lemma wp_bind {A B} (c : M A) (k : A → M B) (Q : B → Machine → Prop) E m :
  wp (c ≫= k) Q E m = wp c (λ a, wp (k a) Q E) E m.
Proof.
  unfold wp, mbind, M_bind. destruct (c m) as [[a|p] m']; reflexivity.
Qed.

Lemma wp_panic {A} (p : PanicValue) (Q : A → Machine → Prop) E m :
  wp (panic p) Q E m = E p m.
Proof. reflexivity. Qed.

Lemma wp_lift {A} (o : Outcome A) (Q : A → Machine → Prop) E m :
  wp (lift o) Q E m = match o with Returned a => Q a m | Panicked p => E p m end.
Proof. reflexivity. Qed.

Lemma wp_get_saga (Q : Saga → Machine → Prop) E m :
  wp get_saga Q E m = Q (saga m) m.
Proof. reflexivity. Qed.

Lemma wp_modify_saga f (Q : unit → Machine → Prop) E m :
  wp (modify_saga f) Q E m =
  Q () {| saga := f (saga m); world := world m; clock := clock m;
          trace := trace m |}.
Proof. reflexivity. Qed.

Lemma wp_time_Now (Q : nat → Machine → Prop) E m :
  wp time_Now Q E m =
  Q (clock m) {| saga := saga m; world := world m;
                 clock := Datatypes.S (clock m); trace := trace m |}.
Proof. reflexivity. Qed.

Lemma wp_index {A} (l : list A) i (Q : A → Machine → Prop) E m :
  wp (index l i) Q E m =
  match l !! i with
  | Some x => Q x m
  | None => E (PanicRuntime "index out of range") m
  end.
Proof. unfold index. destruct (l !! i); reflexivity. Qed.

Lemma wp_checkErr e msg (Q : unit → Machine → Prop) E m :
  wp (checkErr e msg) Q E m =
  match e with Some e' => E (PanicLog msg e') m | None => Q () m end.
Proof. destruct e; reflexivity. Qed.

Lemma wp_AppendLog l (Q : option error → Machine → Prop) E m :
  wp (logStore_AppendLog l) Q E m =
  Q (AppendLog l (logStore (saga m))).1
    {| saga := set_logStore (AppendLog l (logStore (saga m))).2 (saga m);
       world := world m; clock := clock m;
       trace := trace m ++ [EvAppend l (AppendLog l (logStore (saga m))).1] |}.
Proof. reflexivity. Qed.

Lemma wp_Call site (f : FuncValue) params (Q : list Value → Machine → Prop) E m :
  wp (Call site f params) Q E m =
  if decide (type_of <$> params = fn_in f) then
    Q (fn_body f params (world m)).1
      {| saga := saga m; world := (fn_body f params (world m)).2;
         clock := clock m;
         trace := trace m ++
           [EvCall site f params (fn_body f params (world m)).1] |}
  else E (PanicRuntime "reflect: Call with mismatched arguments") m.
Proof. unfold wp, Call. destruct (decide _); reflexivity. Qed.

Lemma wp_getFuncValue obj (Q : FuncValue → Machine → Prop) E m :
  wp (getFuncValue obj) Q E m =
  match obj with
  | ObjFunc f =>
      match fn_in f with
      | TContext :: _ => Q f m
      | _ => E (PanicLog [] "first argument must use context.ctx") m
      end
  | _ => E (PanicLog [] "registered object must be a func") m
  end.
Proof.
  destruct obj as [| | |f]; try reflexivity.
  unfold getFuncValue. rewrite wp_bind.
  destruct (fn_in f) as [|[] ?]; reflexivity.
Qed.

Lemma wp_mono {A} (c : M A) (Q Q' : A → Machine → Prop) E E' m :
  wp c Q E m →
  (∀ a m', Q a m' → Q' a m') →
  (∀ p m', E p m' → E' p m') →
  wp c Q' E' m.
Proof.
  unfold wp. destruct (c m) as [[a|p] m']; auto.
Qed.

(** A loop with an invariant indexed by the iterations already made. *)
Lemma wp_for (f : nat → M unit) (l : list nat)
    (I : list nat → Machine → Prop) E m :
  I [] m →
  (∀ pre i post m', l = pre ++ i :: post → I pre m' →
     wp (f i) (λ _, I (pre ++ [i])) E m') →
  wp (for_ l f) (λ _, I l) E m.
Proof.
  intros HI Hstep.
  assert (Hgen : ∀ post pre m', l = pre ++ post → I pre m' →
                   wp (for_ post f) (λ _, I l) E m').
  { induction post as [|i post IH]; intros pre m' Hl Hpre.
    - rewrite app_nil_r in Hl. subst pre. exact Hpre.
    - cbn [for_]. rewrite wp_bind.
      eapply wp_mono; [apply (Hstep pre i post m' Hl Hpre) | | auto].
      intros [] m'' Hm''. cbn beta in *.
      apply (IH (pre ++ [i])); [|exact Hm''].
      rewrite <- app_assoc. exact Hl. }
  apply (Hgen l []); [reflexivity | exact HI].
Qed.

Lemma wp_run {A} (c : M A) (Q : A → Machine → Prop) E m :
  wp c Q E m →
  match (c m).1 with
  | Returned a => Q a (c m).2
  | Panicked p => E p (c m).2
  end.
Proof. unfold wp. destruct (c m) as [[a|p] m']; auto. Qed.

End Execution.

Create Rewrite HintDb wp.

#[global] Hint Rewrite @wp_bind @wp_ret @wp_panic @wp_lift @wp_get_saga
  @wp_modify_saga @wp_time_Now @wp_index @wp_checkErr @wp_AppendLog
  @wp_getFuncValue @wp_Call : wp.

(** Projections of the machine and of the saga after an update. *)
Ltac wp_simpl :=
  cbn [saga world clock trace ExecutionID Name returnedValuesFromFunc
       toCompensate aborted err steps ctx logStore set_steps
       set_returnedValuesFromFunc set_toCompensate set_aborted set_err
       set_logStore fst snd] in *.

(** Runs a computation symbolically as far as it is determined. *)
Ltac wp_exec :=
  repeat (progress (autorewrite with wp; cbn beta iota zeta; wp_simpl)).

(** Splits on what the next branch of the run depends on, unless a
    hypothesis already tells it. *)
Ltac wp_case :=
  match goal with
  | H : AppendLog ?l ?st = _ |- context [AppendLog ?l ?st] =>
      rewrite H; wp_simpl
  | H : fn_body ?f ?ps ?w = _ |- context [fn_body ?f ?ps ?w] =>
      rewrite H; wp_simpl
  | H : isReturnError ?r = _ |- context [isReturnError ?r] =>
      rewrite H
  | |- context [AppendLog ?l ?st] =>
      let r := fresh "r" in
      let st' := fresh "store'" in
      let H := fresh "HA" in
      destruct (AppendLog l st) as [r st'] eqn:H; wp_simpl
  | |- context [fn_body ?f ?ps ?w] =>
      let r := fresh "res" in
      let w' := fresh "w'" in
      let H := fresh "HB" in
      destruct (fn_body f ps w) as [r w'] eqn:H; wp_simpl
  | |- match ?x with _ => _ end => destruct x eqn:?
  | |- wp (match ?x with _ => _ end) _ _ _ => destruct x eqn:?
  end.

Ltac wp_go := repeat (wp_exec; try wp_case).

(** ** Step registration and the aborted flag *)

Section Flags.
Context {W : Type} {S : Type} `{!Store S}.

#[local] Abbreviation Machine := (@Machine W S).

Implicit Types (m : Machine) (st : @Step W).

Lemma AddStep_appends st m :
  AddStep st m =
  (Returned (),
   {| saga := set_steps (steps (saga m) ++ [st]) (saga m);
      world := world m; clock := clock m; trace := trace m |}).
Proof. reflexivity. Qed.

Lemma execStep_aborted i m :
  aborted (saga m) = true → execStep i m = (Returned (), m).
Proof.
  intros Hab. unfold execStep, mbind, M_bind, get_saga.
  rewrite Hab. reflexivity.
Qed.

(** C5. Once the aborted flag of a saga is set, executing forward steps does
    nothing: whatever indices [execStep] is called with afterwards, every call
    returns at once and the machine (saga, world, clock and trace) is left as
    it was, so no action is invoked and nothing is recorded. *)
Theorem aborted_blocks_forward_steps m (js : list nat) :
  aborted (saga m) = true →
  for_ js execStep m = (Returned (), m).
Proof.
  intros Hab. induction js as [|j js IH]; [reflexivity|].
  cbn [for_]. unfold mbind, M_bind.
  rewrite (execStep_aborted j m Hab). exact IH.
Qed.

End Flags.

(** ** A forward action without results *)

Section NoResults.
Context {W : Type} {S : Type} `{!Store S}.

#[local] Abbreviation Machine := (@Machine W S).

Implicit Types (m : Machine) (st : @Step W) (f g : @FuncValue W).

Lemma quiet_refl m : quiet m m.
Proof.
  unfold quiet. split_and!; try done.
  exists []. rewrite app_nil_r. split; [done|apply not_elem_of_nil].
Qed.

Lemma execStep_quiet m i st f :
  steps (saga m) !! i = Some st →
  Func st = ObjFunc f →
  (fn_body f [VContext (ctx (saga m))] (world m)).1 = [] →
  wp (execStep i) (λ _, quiet m) (λ _, quiet m) m.
Proof.
  intros Hst Hf Hres.
  destruct (fn_body f _ _) as [res w'] eqn:HB. cbn in Hres. subst res.
  assert (Hnil : isReturnError [] = Returned None) by reflexivity.
  unfold execStep. wp_exec.
  destruct (aborted (saga m)) eqn:Hab; [wp_exec; apply quiet_refl|].
  wp_exec. rewrite Hst, Hf.
  wp_go; unfold quiet; wp_simpl; rewrite <- ?app_assoc;
    (split_and!; [done | done | eexists; split; [reflexivity|]]);
    cbn; repeat (apply not_elem_of_cons; split; [discriminate|]);
    apply not_elem_of_nil.
Qed.

Lemma run_by_wp {A} (c : @M W S A) m r :
  wp c (λ a m', (Returned a, m') = r) (λ p m', (Panicked p, m') = r) m →
  c m = r.
Proof. unfold wp. destruct (c m) as [[a|p] m']; auto. Qed.

Lemma wp_self {A} (c : @M W S A) m :
  wp c (λ a m', (Returned a, m') = c m) (λ p m', (Panicked p, m') = c m) m.
Proof. unfold wp. destruct (c m) as [[a|p] m']; reflexivity. Qed.

Lemma bind_modify_saga {A} (upd : Saga → Saga) (k : unit → @M W S A) m :
  (modify_saga upd ≫= k) m =
  k () {| saga := upd (saga m); world := world m; clock := clock m;
          trace := trace m |}.
Proof. reflexivity. Qed.

(** [execStep] up to the point where it inspects the error. *)
Lemma execStep_run m i st f g store' res w' :
  aborted (saga m) = false →
  steps (saga m) !! i = Some st →
  Func st = ObjFunc f → takes_context_only f →
  CompensateFunc st = ObjFunc g → takes_context_first g →
  AppendLog (StepExec_log (saga m) (clock m) i st) (logStore (saga m))
    = (None, store') →
  fn_body f [VContext (ctx (saga m))] (world m) = (res, w') →
  execStep i m =
  match isReturnError res with
  | Returned None => (Returned (), after_forward m i st f g store' res w')
  | Returned (Some e) =>
      (modify_saga (set_err (Some e)) ;; abort)
        (after_forward m i st f g store' res w')
  | Panicked p => (Panicked p, after_forward m i st f g store' res w')
  end.
Proof.
  intros Hab Hst Hf Hfin Hg [rest Hgin] Hlog Hbody.
  unfold StepExec_log in Hlog. unfold takes_context_only in Hfin.
  apply run_by_wp. unfold execStep. wp_exec.
  rewrite Hab. wp_exec. rewrite Hst. wp_exec. rewrite Hlog. wp_exec.
  rewrite Hf, Hfin. wp_exec. rewrite ?Hfin. cbn [fmap list_fmap type_of].
  rewrite decide_True by reflexivity. rewrite Hbody. wp_exec.
  rewrite Hg, Hgin. wp_exec. unfold after_forward, StepExec_log.
  rewrite <- app_assoc. cbn [app].
  destruct (isReturnError res) as [[e|]|p]; wp_exec; try reflexivity.
  rewrite bind_modify_saga. wp_simpl. apply wp_self.
Qed.

(** C10. A forward action that returns no values counts as a success:
    [isReturnError] answers nil on the empty result list; whatever else
    happens in [execStep] for such a step, the saga's error and aborted flag
    stay as they were and no SagaAbort event is emitted; and when the saga is
    not aborted, the store takes the StepExec event and both functions of
    the step pass [getFuncValue], [execStep] returns normally, having
    recorded the empty result list and the compensating function. *)
Theorem zero_results_count_as_success m i st f :
  steps (saga m) !! i = Some st →
  Func st = ObjFunc f →
  (fn_body f [VContext (ctx (saga m))] (world m)).1 = [] →
  isReturnError [] = Returned None ∧
  quiet m (execStep i m).2 ∧
  ∀ g,
    aborted (saga m) = false →
    takes_context_only f →
    CompensateFunc st = ObjFunc g → takes_context_first g →
    (AppendLog (StepExec_log (saga m) (clock m) i st) (logStore (saga m))).1
      = None →
    ∃ m', execStep i m = (Returned (), m') ∧
      err (saga m') = err (saga m) ∧
      aborted (saga m') = false ∧
      returnedValuesFromFunc (saga m')
        = returnedValuesFromFunc (saga m) ++ [[]] ∧
      toCompensate (saga m') = toCompensate (saga m) ++ [g] ∧
      trace m' = trace m ++
        [EvAppend (StepExec_log (saga m) (clock m) i st) None;
         EvCall (Forward i) f [VContext (ctx (saga m))] []].
Proof.
  intros Hst Hf Hres. split; [reflexivity|]. split.
  - pose proof (wp_run _ _ _ _ (execStep_quiet m i st f Hst Hf Hres)) as Hq.
    destruct (execStep i m).1; exact Hq.
  - intros g Hab Hfin Hg Hgin Hlog.
    destruct (fn_body f _ _) as [res w'] eqn:HB. cbn in Hres. subst res.
    destruct (AppendLog _ _) as [r store'] eqn:HA. cbn in Hlog. subst r.
    rewrite (execStep_run m i st f g store' [] w') by assumption.
    cbn. eexists. split; [reflexivity|]. cbn. by rewrite Hab.
Qed.

End NoResults.

(** ** What a forward call is given *)

Section ForwardArguments.
Context {W : Type} {S : Type} `{!Store S}.

#[local] Abbreviation Machine := (@Machine W S).

Implicit Types (m : Machine).

Lemma forwards_pass_context_refl m : forwards_pass_context m m.
Proof.
  split; [done|]. exists []. by rewrite app_nil_r.
Qed.

(** Closes a leaf of a symbolic run: the trace grew by events that are no
    forward calls, or by a forward call on the context. *)
Ltac fpc_leaf :=
  match goal with
  | H : forwards_pass_context _ _ |- forwards_pass_context _ _ =>
      let Hc := fresh "Hc" in
      let evs := fresh "evs" in
      let Ht := fresh "Ht" in
      let Hall := fresh "Hall" in
      destruct H as (Hc & evs & Ht & Hall);
      split; wp_simpl; [exact Hc|];
      rewrite Ht, <- ?app_assoc;
      eexists; split; [reflexivity|];
      rewrite ?Forall_app; split_and?; try exact Hall;
      repeat (apply List.Forall_cons; [cbn; first [exact I | congruence]|]);
      apply List.Forall_nil
  end.

Lemma compensateStep_forwards m0 i m :
  forwards_pass_context m0 m →
  wp (compensateStep i) (λ _, forwards_pass_context m0)
     (λ _, forwards_pass_context m0) m.
Proof.
  intros Hinv. unfold compensateStep. wp_go; fpc_leaf.
Qed.

Lemma abort_forwards m0 m :
  forwards_pass_context m0 m →
  wp abort (λ _, forwards_pass_context m0) (λ _, forwards_pass_context m0) m.
Proof.
  intros Hinv. unfold abort. wp_go; try fpc_leaf.
  apply (wp_for _ _ (λ _, forwards_pass_context m0)); [fpc_leaf|].
  intros pre i post m' _ Hm'. by apply compensateStep_forwards.
Qed.

Lemma execStep_forwards m0 i m :
  forwards_pass_context m0 m →
  wp (execStep i) (λ _, forwards_pass_context m0)
     (λ _, forwards_pass_context m0) m.
Proof.
  intros Hinv. unfold execStep. wp_go; try fpc_leaf.
  all: apply abort_forwards; fpc_leaf.
Qed.

Lemma Play_forwards m0 m :
  forwards_pass_context m0 m →
  wp Play (λ _, forwards_pass_context m0) (λ _, forwards_pass_context m0) m.
Proof.
  intros Hinv. unfold Play. wp_go; try fpc_leaf.
  eapply wp_mono;
    [apply (wp_for _ _ (λ _, forwards_pass_context m0)); [fpc_leaf|] | |].
  - intros pre i post m' _ Hm'. by apply execStep_forwards.
  - intros [] m' Hm'. cbn beta. wp_go; fpc_leaf.
  - auto.
Qed.

(** C8. In a run of [Play], whatever it leads to, every call of a forward
    action is made with exactly one argument, the saga's context: the results
    of earlier forward steps are never passed to a later one. *)
Theorem forward_actions_get_the_context_only m :
  ∃ evs, trace (Play m).2 = trace m ++ evs ∧
    ∀ i callee params results,
      EvCall (Forward i) callee params results ∈ evs →
      params = [VContext (ctx (saga m))].
Proof.
  pose proof (wp_run _ _ _ _ (Play_forwards m m (forwards_pass_context_refl m)))
    as Hrun.
  assert (Hinv : forwards_pass_context m (Play m).2)
    by (destruct (Play m).1; exact Hrun).
  destruct Hinv as (_ & evs & Ht & Hall).
  exists evs. split; [exact Ht|].
  intros i callee params results Hin.
  rewrite Forall_forall in Hall. exact (Hall _ Hin).
Qed.

End ForwardArguments.

(** ** A failing log store *)

Section StoreFailure.
Context {W : Type} {S : Type} `{!Store S}.

#[local] Abbreviation Machine := (@Machine W S).

Implicit Types (m : Machine).

Lemma appends_ok_refl m : appends_ok m m.
Proof. exists []. rewrite app_nil_r. split; [done|constructor]. Qed.

Ltac appended_tail Hall :=
  unfold all_appended in *; rewrite ?Forall_app; split_and?; try exact Hall;
  repeat (apply List.Forall_cons; [reflexivity|]); apply List.Forall_nil.

Ltac fatal_leaf :=
  match goal with
  | H : appends_ok _ _ |- _ =>
      let evs := fresh "evs" in
      let Ht := fresh "Ht" in
      let Hall := fresh "Hall" in
      destruct H as (evs & Ht & Hall);
      first
        [ progress (unfold appends_ok); wp_simpl; rewrite Ht, <- ?app_assoc;
          eexists; split; [reflexivity|]; appended_tail Hall
        | unfold stopped_at_failure; wp_simpl; rewrite Ht, <- ?app_assoc;
          eexists; split; [reflexivity|]; left; appended_tail Hall
        | unfold stopped_at_failure; wp_simpl; rewrite Ht, <- ?app_assoc;
          eexists; split; [reflexivity|]; right; do 3 eexists;
          split_and!; [reflexivity | exact Hall | reflexivity] ]
  end.

Lemma compensateStep_fatal m0 i m :
  appends_ok m0 m →
  wp (compensateStep i) (λ _, appends_ok m0) (stopped_at_failure m0) m.
Proof.
  intros Hinv. unfold compensateStep. wp_go; fatal_leaf.
Qed.

Lemma abort_fatal m0 m :
  appends_ok m0 m →
  wp abort (λ _, appends_ok m0) (stopped_at_failure m0) m.
Proof.
  intros Hinv. unfold abort. wp_go; try fatal_leaf.
  apply (wp_for _ _ (λ _, appends_ok m0)); [fatal_leaf|].
  intros pre i post m' _ Hm'. by apply compensateStep_fatal.
Qed.

Lemma execStep_fatal m0 i m :
  appends_ok m0 m →
  wp (execStep i) (λ _, appends_ok m0) (stopped_at_failure m0) m.
Proof.
  intros Hinv. unfold execStep. wp_go; try fatal_leaf.
  all: apply abort_fatal; fatal_leaf.
Qed.

Lemma Play_fatal m0 m :
  appends_ok m0 m →
  wp Play (λ _, appends_ok m0) (stopped_at_failure m0) m.
Proof.
  intros Hinv. unfold Play. wp_go; try fatal_leaf.
  eapply wp_mono;
    [apply (wp_for _ _ (λ _, appends_ok m0)); [fatal_leaf|] | |].
  - intros pre i post m' _ Hm'. by apply execStep_fatal.
  - intros [] m' Hm'. cbn beta. wp_go; fatal_leaf.
  - auto.
Qed.

Lemma failed_append_not_appended pre l e post :
  ¬ all_appended (pre ++ @EvAppend W l (Some e) :: post).
Proof.
  unfold all_appended. rewrite Forall_app, Forall_cons. cbn.
  intros (_ & ? & _). discriminate.
Qed.

(** C9. When the store answers an append with an error during [Play], the
    run stops there: the failed append is the last event of the run, and
    [Play] does not return a result but panics with the [log.Panicln] of that
    error. *)
Theorem store_failure_aborts_the_run m pre l e post :
  trace (Play m).2 = trace m ++ pre ++ EvAppend l (Some e) :: post →
  post = [] ∧ (Play m).1 = Panicked (PanicLog [] e).
Proof.
  intros Htrace.
  pose proof (wp_run _ _ _ _ (Play_fatal m m (appends_ok_refl m))) as Hrun.
  destruct (Play m).1 as [res|p].
  - destruct Hrun as (evs & Ht & Hall).
    rewrite Ht in Htrace. apply app_inv_head in Htrace. subst evs.
    by apply failed_append_not_appended in Hall.
  - destruct Hrun as (evs & Ht & [Hall | (pre' & l' & e' & Hevs & Hpre & ->)]);
      rewrite Ht in Htrace; apply app_inv_head in Htrace; subst evs.
    + by apply failed_append_not_appended in Hall.
    + destruct post as [|y post _] using rev_ind.
      * apply app_inj_tail in Hevs as [_ Hev]. by injection Hev as -> ->.
      * change (pre ++ EvAppend l (Some e) :: post ++ [y])
          with (pre ++ (EvAppend l (Some e) :: post) ++ [y]) in Hevs.
        rewrite app_assoc in Hevs.
        apply app_inj_tail in Hevs as [<- _].
        by apply failed_append_not_appended in Hpre.
Qed.

End StoreFailure.

(** ** From the forward action to its compensation *)

Section RoundTrip.
Context {W : Type} {S : Type} `{!Store S}.

#[local] Abbreviation Machine := (@Machine W S).

Implicit Types (m : Machine) (sts : list (@Step W)) (t : list (@Event W)).

Lemma addParams_loop (l : list Value) (d : Value) (k : nat) (vs : list Value) :
  k ≤ length l →
  foldl (λ vs i, vs ++ [nth i l d]) vs (seq 0 k) = vs ++ take k l.
Proof.
  induction k as [|k IH]; intros Hk.
  - cbn. by rewrite app_nil_r.
  - rewrite seq_S, foldl_app, IH by lia. cbn.
    destruct (lookup_lt_is_Some_2 l k) as [x Hx]; [lia|].
    rewrite (take_S_r l k x Hx), (nth_lookup_Some l k d x Hx).
    by rewrite <- app_assoc.
Qed.

Lemma addParams_outputs vs returned :
  addParams vs returned = vs ++ outputs returned.
Proof.
  unfold addParams, outputs. case_bool_decide as Hlen.
  - apply addParams_loop. lia.
  - replace (length returned - 1) with 0 by lia. cbn. by rewrite app_nil_r.
Qed.

Lemma outputs_snoc outs v : outputs (outs ++ [v]) = outs.
Proof.
  unfold outputs. rewrite length_app. cbn.
  replace (length outs + 1 - 1) with (length outs) by lia.
  apply take_app_length.
Qed.

Lemma round_trip_nil sts c : round_trip sts c [].
Proof. intros i g params results' Hin. by apply elem_of_nil in Hin. Qed.

(** Appending anything but a compensating call keeps the property. *)
Lemma round_trip_snoc sts c t ev :
  round_trip sts c t →
  (∀ i g params results', ev ≠ EvCall (Compensate i) g params results') →
  round_trip sts c (t ++ [ev]).
Proof.
  intros Hrt Hev i g params results' Hin.
  apply elem_of_app in Hin as [Hin|Hin].
  - destruct (Hrt _ _ _ _ Hin) as (st & f & results & ? & ? & ? & ? & ?).
    exists st, f, results. split_and!; try done.
    apply elem_of_app. by left.
  - apply list_elem_of_singleton in Hin. by destruct (Hev i g params results').
Qed.

(** Appending a compensating call on the recorded outputs keeps it. *)
Lemma round_trip_compensate sts c t i st f g results results' :
  round_trip sts c t →
  sts !! i = Some st → Func st = ObjFunc f → CompensateFunc st = ObjFunc g →
  EvCall (Forward i) f [VContext c] results ∈ t →
  round_trip sts c
    (t ++ [EvCall (Compensate i) g (VContext c :: outputs results) results']).
Proof.
  intros Hrt Hst Hf Hg Hfw i' g' params r' Hin.
  apply elem_of_app in Hin as [Hin|Hin].
  - destruct (Hrt _ _ _ _ Hin) as (st' & f' & rs & ? & ? & ? & ? & ?).
    exists st', f', rs. split_and!; try done.
    apply elem_of_app. by left.
  - apply list_elem_of_singleton in Hin. injection Hin as -> -> -> ->.
    exists st, f, results. split_and!; try done.
    apply elem_of_app. by left.
Qed.

Lemma record_in_step_trace sts c m m' :
  record_in_step sts c m →
  steps (saga m') = steps (saga m) → ctx (saga m') = ctx (saga m) →
  toCompensate (saga m') = toCompensate (saga m) →
  returnedValuesFromFunc (saga m') = returnedValuesFromFunc (saga m) →
  (∀ ev, ev ∈ trace m → ev ∈ trace m') →
  record_in_step sts c m'.
Proof.
  intros (Hsteps & Hctx & Hlen & Hrec) Hs Hc Ht Hr Hsub.
  unfold record_in_step. rewrite Hs, Hc, Ht, Hr. split_and!; try done.
  intros k rs g Hk Hg.
  destruct (Hrec k rs g Hk Hg) as (st & f & ? & ? & ? & ?).
  exists st, f. split_and!; try done. by apply Hsub.
Qed.

Lemma round_trip_compensateStep sts c m i l g lg r res :
  unwinding sts c m →
  returnedValuesFromFunc (saga m) !! i = Some l →
  toCompensate (saga m) !! i = Some g →
  round_trip sts c
    ((trace m ++ [EvAppend lg r]) ++
     [EvCall (Compensate i) g
        (addParams ([] ++ [VContext (ctx (saga m))]) l) res]).
Proof.
  intros [(Hsteps & Hctx & Hlen & Hrec) Hrt] Hl Hg.
  destruct (Hrec i l g Hl Hg) as (st & f & Hst & Hf & Hcf & Hin).
  rewrite addParams_outputs, Hctx. cbn [app].
  apply (round_trip_compensate sts c _ i st f g l res); try done.
  - by apply round_trip_snoc.
  - apply elem_of_app. by left.
Qed.

Lemma elem_of_snoc_l {A} (l : list A) (x y : A) : x ∈ l → x ∈ l ++ [y].
Proof. intros. apply elem_of_app. by left. Qed.

Lemma compensateStep_round_trip sts c i m :
  unwinding sts c m →
  wp (compensateStep i)
     (λ _ m', unwinding sts c m' ∧ aborted (saga m') = aborted (saga m))
     (λ _ m', round_trip sts c (trace m')) m.
Proof.
  intros Hinv. pose proof Hinv as [Hrec Hrt].
  unfold compensateStep. wp_go;
    first
      [ assumption
      | by apply round_trip_snoc
      | by apply round_trip_compensateStep
      | split; [split|reflexivity];
        [ apply (record_in_step_trace sts c m); try done;
          wp_simpl; intros ev Hev; by do 2 apply elem_of_snoc_l
        | by apply round_trip_compensateStep ] ].
Qed.

Lemma abort_round_trip sts c m :
  unwinding sts c m →
  wp abort
     (λ _ m', unwinding sts c m' ∧ aborted (saga m') = true)
     (λ _ m', round_trip sts c (trace m')) m.
Proof.
  intros Hinv. pose proof Hinv as [Hrec Hrt].
  unfold abort. wp_go; try by apply round_trip_snoc.
  apply (wp_for _ _ (λ _ m', unwinding sts c m' ∧ aborted (saga m') = true)).
  - split; [split|reflexivity]; wp_simpl.
    + apply (record_in_step_trace sts c m); try done.
      wp_simpl. intros ev Hev. by apply elem_of_snoc_l.
    + by apply round_trip_snoc.
  - intros pre i post m' _ [Hm' Hab].
    eapply wp_mono; [by apply compensateStep_round_trip | | auto].
    intros [] m'' [? Hab']. cbn beta. split; [done|]. by rewrite Hab'.
Qed.

(** The execution record after a forward call of step [i] was added to it. *)
Lemma unwinding_push sts c m m' i st f g res ev :
  unwinding sts c m →
  length (returnedValuesFromFunc (saga m)) = i →
  steps (saga m) !! i = Some st →
  Func st = ObjFunc f → CompensateFunc st = ObjFunc g →
  steps (saga m') = steps (saga m) → ctx (saga m') = ctx (saga m) →
  toCompensate (saga m') = toCompensate (saga m) ++ [g] →
  returnedValuesFromFunc (saga m') = returnedValuesFromFunc (saga m) ++ [res] →
  trace m' =
    (trace m ++ [EvAppend ev None]) ++
    [EvCall (Forward i) f [VContext (ctx (saga m))] res] →
  unwinding sts c m'.
Proof.
  intros [(Hsteps & Hctx & Hlen & Hrec) Hrt] Hi Hst Hf Hg Hs Hc Htc Hrv Htr.
  split.
  - split_and!; [congruence | congruence | |].
    { rewrite Htc, Hrv, !length_app, Hlen. done. }
    rewrite Htc, Hrv, Htr. intros k rs g' Hk Hg'.
    destruct (decide (k < i)) as [Hlt|Hge].
    + rewrite lookup_app_l in Hk by lia.
      rewrite lookup_app_l in Hg' by lia.
      destruct (Hrec k rs g' Hk Hg') as (st' & f' & ? & ? & ? & ?).
      exists st', f'. split_and!; try done. by do 2 apply elem_of_snoc_l.
    + assert (k = i) as ->.
      { apply lookup_lt_Some in Hk. rewrite length_app in Hk. cbn in Hk. lia. }
      rewrite lookup_app_r in Hk by lia.
      rewrite lookup_app_r in Hg' by lia.
      rewrite Hi, Nat.sub_diag in Hk. rewrite Hlen, Hi, Nat.sub_diag in Hg'.
      cbn in Hk, Hg'. injection Hk as <-. injection Hg' as <-.
      exists st, f. rewrite <- Hsteps, <- Hctx. split_and!; try done.
      apply elem_of_app. right. by apply list_elem_of_singleton.
  - rewrite Htr. by repeat apply round_trip_snoc.
Qed.

Lemma execStep_round_trip sts c i m :
  running sts c i m →
  wp (execStep i) (λ _, running sts c (Datatypes.S i))
     (λ _ m', round_trip sts c (trace m')) m.
Proof.
  intros [Hinv Hlen]. pose proof Hinv as [Hrec Hrt].
  unfold execStep. wp_go; try by repeat apply round_trip_snoc.
  - split; [done|]. intros ?; congruence.
  - eapply wp_mono; [apply (abort_round_trip sts c) | | by intros].
    + eapply (unwinding_push sts c m _ i); eauto.
    + intros [] m' [Hm' Hab]. split; [done|]. intros ?; congruence.
  - split; [eapply (unwinding_push sts c m _ i); eauto|].
    intros _. wp_simpl. rewrite length_app, Hlen by done. cbn. lia.
Qed.

Lemma Play_round_trip sts c m :
  running sts c 0 m →
  wp Play (λ _ m', round_trip sts c (trace m'))
     (λ _ m', round_trip sts c (trace m')) m.
Proof.
  intros [Hinv Hlen]. pose proof Hinv as [Hrec Hrt].
  unfold Play. wp_go; try by repeat apply round_trip_snoc.
  eapply wp_mono;
    [apply (wp_for _ _ (λ pre, running sts c (length pre))) | |].
  - split; [split|]; wp_simpl; [|by apply round_trip_snoc|done].
    apply (record_in_step_trace sts c m); try done.
    wp_simpl. intros ev Hev. by apply elem_of_snoc_l.
  - intros pre i post m' Hseq Hm'.
    assert (i = length pre) as ->.
    { assert (Hi : seq 0 (length (steps (saga m))) !! length pre = Some i)
        by (rewrite Hseq; apply list_lookup_middle; done).
      apply lookup_seq in Hi. lia. }
    rewrite length_app, Nat.add_1_r. by apply execStep_round_trip.
  - intros [] m' [[Hrec' Hrt'] _]. cbn beta.
    wp_go; by repeat apply round_trip_snoc.
  - auto.
Qed.

(** C6. In a run of [Play] on a saga whose execution record and trace are
    empty, whatever the run leads to: every call of a compensating function
    is, for some step, the call of that step's compensating function, and its
    arguments are the context followed by the outputs, unchanged and in
    order, of the step's forward function, whose call on the context alone
    is earlier in the trace; when the forward function returned
    [outs ++ [e]], the arguments are the context followed by [outs]. *)
Theorem compensation_receives_forward_outputs m i g params results' :
  returnedValuesFromFunc (saga m) = [] →
  toCompensate (saga m) = [] →
  trace m = [] →
  EvCall (Compensate i) g params results' ∈ trace (Play m).2 →
  ∃ st f results,
    steps (saga m) !! i = Some st ∧
    Func st = ObjFunc f ∧ CompensateFunc st = ObjFunc g ∧
    EvCall (Forward i) f [VContext (ctx (saga m))] results
      ∈ trace (Play m).2 ∧
    params = VContext (ctx (saga m)) :: outputs results ∧
    ∀ outs e, results = outs ++ [e] →
              params = VContext (ctx (saga m)) :: outs.
Proof.
  intros Hrv Htc Htr Hin.
  assert (Hrun : running (steps (saga m)) (ctx (saga m)) 0 m).
  { split; [split|].
    - split_and!; try done.
      + by rewrite Hrv, Htc.
      + intros k rs g' Hk. by rewrite Hrv in Hk.
    - rewrite Htr. apply round_trip_nil.
    - by rewrite Hrv. }
  pose proof (wp_run _ _ _ _ (Play_round_trip _ _ m Hrun)) as Hrt.
  assert (Hfin : round_trip (steps (saga m)) (ctx (saga m)) (trace (Play m).2))
    by (destruct (Play m).1; exact Hrt).
  destruct (Hfin i g params results' Hin)
    as (st & f & results & Hst & Hf & Hg & Hfw & Hparams).
  exists st, f, results. split_and!; try done.
  intros outs e ->. by rewrite outputs_snoc in Hparams.
Qed.

End RoundTrip.

(** ** A run without failure *)

Section Success.
Context {W : Type} {S : Type} `{!Store S}.

#[local] Abbreviation Machine := (@Machine W S).

Implicit Types (m : Machine) (sts : list (@Step W)) (t : list (@Event W)).
Implicit Types (ok : @Event W → Prop).

Lemma imap_take_S {A B} (h : nat → A → B) (l : list A) (k : nat) (x : A) :
  l !! k = Some x → imap h (take (Datatypes.S k) l) = imap h (take k l) ++ [h k x].
Proof.
  intros Hk. rewrite (take_S_r l k x Hk), imap_app. cbn.
  rewrite length_take, Nat.add_0_r.
  apply lookup_lt_Some in Hk. by rewrite Nat.min_l by lia.
Qed.

Lemma calls_app t1 t2 : calls (t1 ++ t2) = calls t1 ++ calls t2.
Proof. apply omap_app. Qed.

Lemma log_types_app t1 t2 : log_types (t1 ++ t2) = log_types t1 ++ log_types t2.
Proof. unfold log_types, emitted. by rewrite omap_app, fmap_app. Qed.

Lemma seq_middle_index n pre i post :
  seq 0 n = pre ++ i :: post → i = length pre ∧ i < n.
Proof.
  intros Hseq.
  assert (Hi : seq 0 n !! length pre = Some i)
    by (rewrite Hseq; apply list_lookup_middle; done).
  apply lookup_seq in Hi. lia.
Qed.

Lemma wp_from_eq {A} (c c' : @M W S A) Q E m m' :
  c m = c' m' → wp c' Q E m' → wp c Q E m.
Proof. unfold wp. by intros ->. Qed.

(** What [execStep] leaves after a forward call that is added to the record. *)
Lemma after_forward_progress sts k m st f g store' res w' :
  forward_progress sts k m →
  sts !! k = Some st → Func st = ObjFunc f →
  forward_progress sts (Datatypes.S k) (after_forward m k st f g store' res w').
Proof.
  intros (Hab & Herr & Hsteps & Hcalls & Hlogs) Hst Hf.
  unfold forward_progress, after_forward. wp_simpl.
  split_and!; try done.
  - rewrite calls_app, fmap_app, Hcalls, (imap_take_S _ _ _ _ Hst).
    cbn. unfold forward_call. by rewrite Hf.
  - rewrite log_types_app, Hlogs, replicate_S_end. done.
Qed.

(** [execStep] when the store refuses the StepExec event. *)
Lemma execStep_store_fails m i st e0 store' :
  aborted (saga m) = false →
  steps (saga m) !! i = Some st →
  AppendLog (StepExec_log (saga m) (clock m) i st) (logStore (saga m))
    = (Some e0, store') →
  execStep i m =
  (Panicked (PanicLog [] e0),
   {| saga := set_logStore store' (saga m); world := world m;
      clock := Datatypes.S (clock m);
      trace := trace m ++
        [EvAppend (StepExec_log (saga m) (clock m) i st) (Some e0)] |}).
Proof.
  intros Hab Hst Hlog. unfold StepExec_log in *.
  apply run_by_wp. unfold execStep. wp_exec.
  rewrite Hab. wp_exec. rewrite Hst. wp_exec. rewrite Hlog. wp_exec.
  reflexivity.
Qed.

(** Once an event is not as expected, the trace stays spoiled: the engine
    only ever adds to it. *)
Lemma spoiled_later ok m m' :
  forwards_pass_context m m' → spoiled ok m → spoiled ok m'.
Proof.
  intros (_ & evs & Ht & _) Hsp HF. apply Hsp.
  rewrite Ht, Forall_app in HF. tauto.
Qed.

Lemma abort_spoiled ok m :
  spoiled ok m → wp abort (λ _, spoiled ok) (λ _, spoiled ok) m.
Proof.
  intros Hsp.
  eapply wp_mono;
    [apply (abort_forwards m m (forwards_pass_context_refl m)) | |];
    intros ? m' Hm'; by apply (spoiled_later ok m).
Qed.

Lemma execStep_spoiled ok i m :
  spoiled ok m → wp (execStep i) (λ _, spoiled ok) (λ _, spoiled ok) m.
Proof.
  intros Hsp.
  eapply wp_mono;
    [apply (execStep_forwards m i m (forwards_pass_context_refl m)) | |];
    intros ? m' Hm'; by apply (spoiled_later ok m).
Qed.

(** The trace ends with an event that is not as expected. *)
Ltac spoil :=
  let HF := fresh "HF" in
  unfold spoiled, after_forward, after_compensate; wp_simpl;
  intros HF; rewrite ?Forall_app, ?Forall_cons in HF; cbn in HF;
  first [tauto | destruct_and?; congruence | naive_solver].

Lemma execStep_went_well sts k m :
  Forall callable_step sts →
  k < length sts →
  checked went_well (forward_progress sts k) m →
  wp (execStep k)
     (λ _, checked went_well (forward_progress sts (Datatypes.S k)))
     (λ _, spoiled went_well) m.
Proof.
  intros Hcall Hk [[Hprog Hok] | Hsp].
  2: { eapply wp_mono; [by apply (execStep_spoiled went_well k m) | |].
       - intros ? m' ?. by right.
       - auto. }
  pose proof Hprog as (Hab & Herr & Hsteps & _).
  destruct (lookup_lt_is_Some_2 sts k Hk) as [st Hst].
  rewrite Forall_lookup in Hcall.
  destruct (Hcall k st Hst) as (f & g & Hf & Hfin & Hg & Hgin).
  rewrite <- Hsteps in Hst.
  destruct (AppendLog (StepExec_log (saga m) (clock m) k st)
              (logStore (saga m))) as [[e0|] store'] eqn:HA.
  - (* the store refuses the event *)
    apply (wp_from_eq _ (panic (PanicLog [] e0)) _ _ _ _
             (execStep_store_fails m k st e0 store' Hab Hst HA)).
    rewrite wp_panic. spoil.
  - destruct (fn_body f [VContext (ctx (saga m))] (world m)) as [res w']
      eqn:Hbody.
    pose proof (execStep_run m k st f g store' res w' Hab Hst Hf Hfin Hg Hgin
                  HA Hbody) as Hrun.
    rewrite Hsteps in Hst.
    destruct (isReturnError res) as [[e1|]|p] eqn:HR.
    + (* the forward action returns an error *)
      apply (wp_from_eq _ _ _ _ _ _ Hrun).
      rewrite wp_bind, wp_modify_saga.
      eapply wp_mono; [apply (abort_spoiled went_well) | |].
      * spoil.
      * intros ? m' ?. by right.
      * auto.
    + (* it returns nil *)
      apply (wp_from_eq _ (mret ()) _ _ _
               (after_forward m k st f g store' res w') Hrun).
      rewrite wp_ret.
      left. split; [by apply after_forward_progress|].
      unfold after_forward. wp_simpl. rewrite Forall_app. split; [done|].
      repeat (apply List.Forall_cons; [done|]). apply List.Forall_nil.
    + (* its last result is no error value *)
      apply (wp_from_eq _ (panic p) _ _ _
               (after_forward m k st f g store' res w') Hrun).
      rewrite wp_panic. spoil.
Qed.

Lemma Play_went_well m :
  aborted (saga m) = false → err (saga m) = None → trace m = [] →
  Forall callable_step (steps (saga m)) →
  wp Play
     (λ r m',
        (r = {| Err := None |} ∧
         Some <$> calls (trace m') = imap forward_call (steps (saga m)) ∧
         log_types (trace m') =
           LogTypeStartSaga ::
           replicate (length (steps (saga m))) LogTypeSagaStepExec ++
           [LogTypeSagaComplete]) ∨
        spoiled went_well m')
     (λ _, spoiled went_well) m.
Proof.
  intros Hab Herr Htr Hcall.
  set (sts := steps (saga m)) in *.
  unfold Play. wp_exec. wp_case. destruct r as [e0|]; wp_exec; [spoil|].
  eapply wp_mono;
    [apply (wp_for _ _
              (λ pre, checked went_well (forward_progress sts (length pre))))
    | |].
  - left. unfold forward_progress. wp_simpl. rewrite Htr.
    split; [by split_and!|]. cbn. apply List.Forall_cons; [done|].
    apply List.Forall_nil.
  - intros pre i post m' Hseq Hm'.
    apply seq_middle_index in Hseq as [-> Hlt].
    rewrite length_app, Nat.add_1_r. by apply execStep_went_well.
  - intros [] m' Hm'. cbn beta. rewrite length_seq in Hm'.
    destruct Hm' as [[(Hab' & Herr' & Hsteps' & Hcalls' & Hlogs') Hok] | Hsp].
    + rewrite take_ge in Hcalls' by done.
      wp_exec. wp_case. destruct r as [e0|]; wp_exec; [spoil|].
      left. rewrite Herr', calls_app, log_types_app, Hlogs', fmap_app, Hcalls'.
      cbn. by rewrite app_nil_r.
    + wp_go; try right; unfold spoiled in *; wp_simpl;
        rewrite ?Forall_app; tauto.
  - by intros.
Qed.

(** C3, as amended. On a saga that is not aborted and has no error yet, and
    whose steps each hold a forward function of the context alone and a
    compensating function of the context first: when, in the run of [Play],
    the store answers nil to every append and every forward call returns a
    nil error, [Play] returns a Result without error; the calls it made are
    exactly the forward actions of the steps, once each, in registration
    order, so no compensating function was called; and the events it emitted
    are StartSaga, one StepExec per step, SagaComplete. *)
Theorem all_steps_succeed m :
  aborted (saga m) = false → err (saga m) = None → trace m = [] →
  Forall callable_step (steps (saga m)) →
  (∀ l r, EvAppend l r ∈ trace (Play m).2 → r = None) →
  (∀ i f params results,
     EvCall (Forward i) f params results ∈ trace (Play m).2 →
     isReturnError results = Returned None) →
  ∃ m', Play m = (Returned {| Err := None |}, m') ∧
    Some <$> calls (trace m') = imap forward_call (steps (saga m)) ∧
    (∀ i g, (Compensate i, g) ∉ calls (trace m')) ∧
    log_types (trace m') =
      LogTypeStartSaga ::
      replicate (length (steps (saga m))) LogTypeSagaStepExec ++
      [LogTypeSagaComplete].
Proof.
  intros Hab Herr Htr Hcall Hstore Hnil.
  assert (Hok : Forall went_well (trace (Play m).2)).
  { apply Forall_forall. intros [l r | [i|i] f ps rs] Hin; cbn; eauto. }
  pose proof (Play_went_well m Hab Herr Htr Hcall) as Hwp.
  unfold wp in Hwp. destruct (Play m) as [[r|p] m']; cbn in Hok; [|done].
  destruct Hwp as [(-> & Hcalls & Hlogs) | Hsp]; [|done].
  exists m'. split_and!; try done.
  intros i g Hin.
  apply (list_elem_of_fmap_2 Some) in Hin. rewrite Hcalls in Hin.
  apply list_elem_of_lookup in Hin as [k Hk].
  rewrite list_lookup_imap in Hk.
  destruct (steps (saga m) !! k) as [st|]; [|done].
  cbn in Hk. unfold forward_call in Hk. by destruct (Func st).
Qed.

End Success.

(** ** The unwind when every compensation succeeds *)

Section Unwind.
Context {W : Type} {S : Type} `{!Store S}.

#[local] Abbreviation Machine := (@Machine W S).

Implicit Types (m : Machine) (sts : list (@Step W)) (t : list (@Event W)).

Lemma compensateStep_run m i st rv g store' res w' :
  steps (saga m) !! i = Some st →
  returnedValuesFromFunc (saga m) !! i = Some rv →
  toCompensate (saga m) !! i = Some g →
  AppendLog (StepCompensate_log (saga m) (clock m) i st) (logStore (saga m))
    = (None, store') →
  fn_in g = TContext :: (type_of <$> outputs rv) →
  fn_body g (VContext (ctx (saga m)) :: outputs rv) (world m) = (res, w') →
  compensateStep i m =
  match isReturnError res with
  | Returned None =>
      (Returned (),
       after_compensate m i st g store'
         (VContext (ctx (saga m)) :: outputs rv) res w')
  | Returned (Some e) =>
      (Panicked (PanicError e),
       after_compensate m i st g store'
         (VContext (ctx (saga m)) :: outputs rv) res w')
  | Panicked p =>
      (Panicked p,
       after_compensate m i st g store'
         (VContext (ctx (saga m)) :: outputs rv) res w')
  end.
Proof.
  intros Hst Hrv Hg Hlog Hgin Hbody. unfold StepCompensate_log in Hlog.
  apply run_by_wp. unfold compensateStep. wp_exec.
  rewrite Hst. wp_exec. rewrite Hlog. wp_exec. rewrite Hrv. wp_exec.
  rewrite Hg. wp_exec. rewrite addParams_outputs. cbn [app].
  rewrite Hgin. cbn [fmap list_fmap type_of].
  rewrite decide_True by reflexivity. rewrite Hbody. wp_exec.
  unfold after_compensate, StepCompensate_log. rewrite <- app_assoc. cbn [app].
  destruct (isReturnError res) as [[e|]|p]; wp_exec; reflexivity.
Qed.

(** The compensation of entry [i] returns an error: [compensateStep]
    panics with it. *)
Lemma compensateStep_panics_on_error m i st rv g store' res w' e :
  steps (saga m) !! i = Some st →
  returnedValuesFromFunc (saga m) !! i = Some rv →
  toCompensate (saga m) !! i = Some g →
  AppendLog (StepCompensate_log (saga m) (clock m) i st) (logStore (saga m))
    = (None, store') →
  fn_in g = TContext :: (type_of <$> outputs rv) →
  fn_body g (VContext (ctx (saga m)) :: outputs rv) (world m) = (res, w') →
  isReturnError res = Returned (Some e) →
  (compensateStep i m).1 = Panicked (PanicError e).
Proof.
  intros Hst Hrv Hg Hlog Hgin Hbody Herr.
  rewrite (compensateStep_run m i st rv g store' res w' Hst Hrv Hg Hlog Hgin Hbody).
  by rewrite Herr.
Qed.

(** [compensateStep] when the store refuses the StepCompensate event. *)
Lemma compensateStep_store_fails m i st e0 store' :
  steps (saga m) !! i = Some st →
  AppendLog (StepCompensate_log (saga m) (clock m) i st) (logStore (saga m))
    = (Some e0, store') →
  compensateStep i m =
  (Panicked (PanicLog [] e0),
   {| saga := set_logStore store' (saga m); world := world m;
      clock := Datatypes.S (clock m);
      trace := trace m ++
        [EvAppend (StepCompensate_log (saga m) (clock m) i st) (Some e0)] |}).
Proof.
  intros Hst Hlog. unfold StepCompensate_log in *.
  apply run_by_wp. unfold compensateStep. wp_exec.
  rewrite Hst. wp_exec. rewrite Hlog. wp_exec. reflexivity.
Qed.

Lemma same_saga_refl m : same_saga m m.
Proof. by split_and!. Qed.

(** The execution record after [execStep] added the forward call of step
    [k] to it. *)
Lemma record_in_step_push sts c m k st f g store' res w' :
  record_in_step sts c m →
  length (toCompensate (saga m)) = k →
  sts !! k = Some st → Func st = ObjFunc f → CompensateFunc st = ObjFunc g →
  record_in_step sts c (after_forward m k st f g store' res w') ∧
  length (toCompensate (saga (after_forward m k st f g store' res w')))
    = Datatypes.S k.
Proof.
  intros (Hsteps & Hctx & Hlen & Hrec) Hk Hst Hf Hg.
  unfold record_in_step, after_forward. wp_simpl.
  rewrite !length_app. cbn. split_and!; [done | done | lia | | lia].
  intros j rv g' Hj Hg'.
  destruct (decide (j < k)) as [Hlt|Hge].
  - rewrite lookup_app_l in Hj by lia.
    rewrite lookup_app_l in Hg' by lia.
    destruct (Hrec j rv g' Hj Hg') as (st' & f' & ? & ? & ? & ?).
    exists st', f'. split_and!; try done. apply elem_of_app. by left.
  - assert (j = k) as ->.
    { apply lookup_lt_Some in Hj. rewrite length_app in Hj. cbn in Hj. lia. }
    rewrite lookup_app_r in Hj by lia.
    rewrite lookup_app_r in Hg' by lia.
    replace (k - length (returnedValuesFromFunc (saga m))) with 0 in Hj by lia.
    replace (k - length (toCompensate (saga m))) with 0 in Hg' by lia.
    cbn in Hj, Hg'. injection Hj as <-. injection Hg' as <-.
    exists st, f. rewrite Hctx. split_and!; try done.
    apply elem_of_app. right.
    apply list_elem_of_lookup. by exists 1.
Qed.

(** The trace ends with an event that is not as expected. *)
Ltac spoil :=
  let HF := fresh "HF" in
  unfold spoiled, after_forward, after_compensate; wp_simpl;
  intros HF; rewrite ?Forall_app, ?Forall_cons in HF; cbn in HF;
  first [tauto | destruct_and?; congruence | naive_solver].

(** The loop of [abort] over the [n] oldest entries of the record, as long
    as the store takes the events and the compensations return nil. *)
Lemma unwind_run sts c i e n : ∀ m,
  record_in_step sts c m →
  n ≤ length (toCompensate (saga m)) →
  Forall (unwinds_well sts i e) (trace m) →
  wp (for_ (reverse (seq 0 n)) compensateStep)
     (λ _ m', same_saga m m' ∧
        Some <$> calls (trace m') =
          (Some <$> calls (trace m)) ++
          reverse (imap compensate_call (take n sts)) ∧
        log_types (trace m') =
          log_types (trace m) ++ replicate n LogTypeSagaStepCompensate ∧
        Forall (unwinds_well sts i e) (trace m'))
     (λ _, spoiled (unwinds_well sts i e)) m.
Proof.
  induction n as [|n IH]; intros m Hrec Hn Hok.
  - unfold wp. cbn. split; [apply same_saga_refl|].
    rewrite take_0. cbn. by rewrite !app_nil_r.
  - rewrite seq_S, reverse_snoc. cbn [for_ plus]. rewrite wp_bind.
    pose proof Hrec as (Hsteps & Hctx & Hlen & Hprod).
    destruct (lookup_lt_is_Some_2 (toCompensate (saga m)) n) as [g Hg]; [lia|].
    destruct (lookup_lt_is_Some_2 (returnedValuesFromFunc (saga m)) n)
      as [rv Hrv]; [lia|].
    destruct (Hprod n rv g Hrv Hg) as (st & f & Hst & Hf & Hcf & Hin).
    assert (Hfit : fn_in g = TContext :: (type_of <$> outputs rv)).
    { rewrite Forall_forall in Hok.
      destruct (Hok _ Hin) as (_ & _ & Hfits). by apply (Hfits st). }
    rewrite <- Hsteps in Hst.
    destruct (AppendLog (StepCompensate_log (saga m) (clock m) n st)
                (logStore (saga m))) as [[e0|] store'] eqn:HA.
    + (* the store refuses the event *)
      apply (wp_from_eq _ (panic (PanicLog [] e0)) _ _ _ _
               (compensateStep_store_fails m n st e0 store' Hst HA)).
      rewrite wp_panic. spoil.
    + destruct (fn_body g (VContext (ctx (saga m)) :: outputs rv) (world m))
        as [res w'] eqn:Hbody.
      pose proof (compensateStep_run m n st rv g store' res w' Hst Hrv Hg HA
                    Hfit Hbody) as Hrun.
      rewrite Hsteps in Hst.
      set (m1 := after_compensate m n st g store'
                   (VContext (ctx (saga m)) :: outputs rv) res w') in *.
      destruct (isReturnError res) as [[e1|]|p] eqn:HR.
      * (* the compensation returns an error *)
        apply (wp_from_eq _ (panic (PanicError e1)) _ _ _ m1 Hrun).
        rewrite wp_panic. unfold m1. spoil.
      * (* it returns nil *)
        apply (wp_from_eq _ (mret ()) _ _ _ m1 Hrun). rewrite wp_ret.
        eapply wp_mono; [apply IH | | by intros].
        -- apply (record_in_step_trace sts c m); try done.
           unfold m1, after_compensate. wp_simpl.
           intros ev Hev. apply elem_of_app. by left.
        -- unfold m1, after_compensate. wp_simpl. lia.
        -- unfold m1, after_compensate. wp_simpl.
           rewrite Forall_app. split; [done|].
           repeat (apply List.Forall_cons; [done|]). apply List.Forall_nil.
        -- intros [] m' (Hsame & Hcalls & Hlogs & Hok'). cbn beta.
           unfold m1, after_compensate, same_saga in *. wp_simpl.
           split; [done|]. rewrite Hcalls, Hlogs. split_and!; [| |done].
           ++ rewrite calls_app, fmap_app, <- !app_assoc.
              rewrite (imap_take_S _ _ _ _ Hst), reverse_snoc.
              unfold compensate_call at 2. rewrite Hcf. cbn. done.
           ++ rewrite log_types_app, <- !app_assoc. cbn. done.
      * (* its last result is no error value *)
        apply (wp_from_eq _ (panic p) _ _ _ m1 Hrun).
        rewrite wp_panic. unfold m1. spoil.
Qed.

Lemma abort_run sts c i e m :
  record_in_step sts c m →
  Forall (unwinds_well sts i e) (trace m) →
  wp abort
     (λ _ m', aborted (saga m') = true ∧ err (saga m') = err (saga m) ∧
        steps (saga m') = sts ∧
        Some <$> calls (trace m') =
          (Some <$> calls (trace m)) ++
          reverse (imap compensate_call
                     (take (length (toCompensate (saga m))) sts)) ∧
        log_types (trace m') =
          log_types (trace m) ++
          LogTypeSagaAbort ::
          replicate (length (toCompensate (saga m))) LogTypeSagaStepCompensate ∧
        Forall (unwinds_well sts i e) (trace m'))
     (λ _, spoiled (unwinds_well sts i e)) m.
Proof.
  intros Hrec Hok. pose proof Hrec as (Hsteps & _).
  unfold abort. wp_exec. wp_case. destruct r as [e0|]; wp_exec; [spoil|].
  eapply wp_mono; [apply (unwind_run sts c i e) | | by intros].
  - apply (record_in_step_trace sts c m); try done.
    wp_simpl. intros ev Hev. apply elem_of_app. by left.
  - wp_simpl. done.
  - wp_simpl. rewrite Forall_app. split; [done|].
    apply List.Forall_cons; [done|]. apply List.Forall_nil.
  - intros [] m' ((Hs & Hc & Htc & Hrv & Hab & Herr) & Hcalls & Hlogs & Hok').
    cbn beta. wp_simpl.
    rewrite Hab, Herr, Hs, Hcalls, Hlogs, calls_app, log_types_app.
    cbn. rewrite app_nil_r, <- app_assoc. done.
Qed.

(** What the expectation says of the forward call of a step up to [i]. *)
Lemma forward_event_unwinds_well sts i e k st f g params res :
  sts !! k = Some st → CompensateFunc st = ObjFunc g → k ≤ i →
  unwinds_well sts i e (EvCall (Forward k) f params res) ↔
  isReturnError res = Returned (if decide (k = i) then Some e else None) ∧
  fn_in g = TContext :: (type_of <$> outputs res).
Proof.
  intros Hst Hg Hk. cbn. split.
  - intros (Hlt & Heq & Hfit). split; [|by apply (Hfit st)].
    destruct (decide (k = i)); [by apply Heq | apply Hlt; lia].
  - intros [HR Hfit]. split_and!.
    + intros ?. rewrite decide_False in HR by lia. done.
    + intros ?. by rewrite decide_True in HR.
    + intros st' g' Hst' Hg'.
      assert (st' = st) as -> by congruence.
      assert (g' = g) as -> by congruence. done.
Qed.

Lemma execStep_unwinds sts c i e k m :
  (∀ j st, j ≤ i → sts !! j = Some st → callable_step st) →
  k < length sts →
  checked (unwinds_well sts i e) (unwind_progress sts c i e k) m →
  wp (execStep k)
     (λ _, checked (unwinds_well sts i e)
             (unwind_progress sts c i e (Datatypes.S k)))
     (λ _, spoiled (unwinds_well sts i e)) m.
Proof.
  intros Hcall Hk [[Hphase Hok] | Hsp].
  2: { eapply wp_mono; [by apply (execStep_spoiled (unwinds_well sts i e) k m) | |].
       - intros ? m' ?. by right.
       - by intros. }
  destruct Hphase as [(Hki & Hprog & Hrec & Hlen) | [Hik Hun]].
  2: { destruct Hun as (Hab & Hrest).
       unfold wp. rewrite (execStep_aborted k m Hab).
       left. split; [|done]. right. split; [lia|]. by split. }
  pose proof Hprog as (Hab & Herr & Hs & Hcalls & Hlogs).
  pose proof Hrec as (_ & Hctx & _).
  destruct (lookup_lt_is_Some_2 sts k Hk) as [st Hst].
  destruct (Hcall k st Hki Hst) as (f & g & Hf & Hfin & Hg & Hgin).
  rewrite <- Hs in Hst.
  destruct (AppendLog (StepExec_log (saga m) (clock m) k st)
              (logStore (saga m))) as [[e0|] store'] eqn:HA.
  { (* the store refuses the event *)
    apply (wp_from_eq _ (panic (PanicLog [] e0)) _ _ _ _
             (execStep_store_fails m k st e0 store' Hab Hst HA)).
    rewrite wp_panic. spoil. }
  destruct (fn_body f [VContext (ctx (saga m))] (world m)) as [res w']
    eqn:Hbody.
  pose proof (execStep_run m k st f g store' res w' Hab Hst Hf Hfin Hg Hgin
                HA Hbody) as Hrun.
  rewrite Hs in Hst.
  pose proof (after_forward_progress sts k m st f g store' res w' Hprog Hst Hf)
    as Hprog1.
  pose proof (record_in_step_push sts c m k st f g store' res w' Hrec Hlen
                Hst Hf Hg) as [Hrec1 Hlen1].
  pose proof (forward_event_unwinds_well sts i e k st f g
                [VContext (ctx (saga m))] res Hst Hg Hki) as Hev.
  assert (Htr1 : trace (after_forward m k st f g store' res w') =
            trace m ++
            [EvAppend (StepExec_log (saga m) (clock m) k st) None;
             EvCall (Forward k) f [VContext (ctx (saga m))] res])
    by reflexivity.
  set (m1 := after_forward m k st f g store' res w') in *.
  assert (Hdec :
    (isReturnError res = Returned (if decide (k = i) then Some e else None) ∧
     fn_in g = TContext :: (type_of <$> outputs res)) ∨
    spoiled (unwinds_well sts i e) m1).
  { destruct (decide (fn_in g = TContext :: (type_of <$> outputs res)))
      as [Hfit|Hnfit].
    2: { right. unfold spoiled. rewrite Htr1, Forall_app, !Forall_cons, Hev.
         tauto. }
    assert (Hno : ∀ o, isReturnError res ≠ Returned o →
              o = (if decide (k = i) then Some e else None) →
              spoiled (unwinds_well sts i e) m1).
    { intros o Hne ->. unfold spoiled.
      rewrite Htr1, Forall_app, !Forall_cons, Hev. tauto. }
    destruct (isReturnError res) as [[e1|]|p] eqn:HR;
      destruct (decide (k = i)) as [Hk'|Hk'].
    - destruct (decide (e1 = e)) as [->|Hne]; [by left|].
      right. apply (Hno (Some e)); [congruence|done].
    - right. by apply (Hno None).
    - right. by apply (Hno (Some e)).
    - by left.
    - right. by apply (Hno (Some e)).
    - right. by apply (Hno None). }
  destruct Hdec as [[HR Hfit] | Hsp1].
  - (* the forward call is as expected *)
    assert (Hok1 : Forall (unwinds_well sts i e) (trace m1)).
    { rewrite Htr1, Forall_app. split; [done|].
      apply List.Forall_cons; [done|].
      apply List.Forall_cons; [by apply Hev|]. apply List.Forall_nil. }
    rewrite HR in Hrun.
    destruct (decide (k = i)) as [->|Hne].
    + (* the failing step *)
      apply (wp_from_eq _ _ _ _ _ _ Hrun).
      rewrite wp_bind, wp_modify_saga.
      destruct Hprog1 as (Hab1 & Herr1 & Hs1 & Hcalls1 & Hlogs1).
      eapply wp_mono; [apply (abort_run sts c i e) | | by intros].
      * apply (record_in_step_trace sts c m1); done.
      * exact Hok1.
      * intros [] m' (Hab' & Herr' & Hs' & Hcalls' & Hlogs' & Hok').
        left. split; [|done]. right. split; [lia|].
        unfold unwound. wp_simpl.
        rewrite Hlen1 in Hcalls', Hlogs'.
        rewrite Hab', Herr', Hs', Hcalls', Hlogs', Hcalls1, Hlogs1.
        split_and!; try done.
    + (* a step before the failing one *)
      apply (wp_from_eq _ (mret ()) _ _ _ m1 Hrun). rewrite wp_ret.
      left. split; [|done]. left. split_and!; try done; lia.
  - (* it is not: whatever follows, the trace shows it *)
    destruct (isReturnError res) as [[e1|]|p].
    + apply (wp_from_eq _ _ _ _ _ _ Hrun).
      rewrite wp_bind, wp_modify_saga.
      eapply wp_mono; [apply (abort_spoiled (unwinds_well sts i e)) | |].
      * exact Hsp1.
      * intros ? m' ?. by right.
      * by intros.
    + apply (wp_from_eq _ (mret ()) _ _ _ m1 Hrun). rewrite wp_ret.
      by right.
    + apply (wp_from_eq _ (panic p) _ _ _ m1 Hrun). rewrite wp_panic.
      exact Hsp1.
Qed.

Lemma Play_unwinds_checked m i e :
  aborted (saga m) = false → err (saga m) = None → trace m = [] →
  returnedValuesFromFunc (saga m) = [] → toCompensate (saga m) = [] →
  i < length (steps (saga m)) →
  (∀ j st, j ≤ i → steps (saga m) !! j = Some st → callable_step st) →
  wp Play
     (λ r m',
        (r = {| Err := Some e |} ∧
         Some <$> calls (trace m') =
           imap forward_call (take (Datatypes.S i) (steps (saga m))) ++
           reverse (imap compensate_call
                      (take (Datatypes.S i) (steps (saga m)))) ∧
         log_types (trace m') =
           LogTypeStartSaga :: replicate (Datatypes.S i) LogTypeSagaStepExec ++
           LogTypeSagaAbort ::
           replicate (Datatypes.S i) LogTypeSagaStepCompensate ++
           [LogTypeSagaComplete]) ∨
        spoiled (unwinds_well (steps (saga m)) i e) m')
     (λ _, spoiled (unwinds_well (steps (saga m)) i e)) m.
Proof.
  intros Hab Herr Htr Hrv Htc Hi Hcall.
  set (sts := steps (saga m)) in *.
  unfold Play. wp_exec. wp_case. destruct r as [e0|]; wp_exec; [spoil|].
  eapply wp_mono;
    [apply (wp_for _ _
              (λ pre, checked (unwinds_well sts i e)
                        (unwind_progress sts (ctx (saga m)) i e (length pre))))
    | |].
  - left. split.
    + left. unfold forward_progress, record_in_step. wp_simpl.
      rewrite Htr, Hrv, Htc. split_and!; try done; cbn; lia.
    + wp_simpl. rewrite Htr. cbn.
      apply List.Forall_cons; [done|]. apply List.Forall_nil.
  - intros pre k post m' Hseq Hm'.
    apply seq_middle_index in Hseq as [-> Hlt].
    rewrite length_app, Nat.add_1_r.
    by apply (execStep_unwinds sts (ctx (saga m)) i e).
  - intros [] m' Hm'. cbn beta. rewrite length_seq in Hm'.
    destruct Hm' as [[[(Hle & _) | (_ & Hun)] Hok] | Hsp];
      [unfold sts in *; lia | |].
    + destruct Hun as (Hab' & Herr' & Hs' & Hcalls' & Hlogs').
      wp_exec. wp_case. destruct r as [e0|]; wp_exec; [spoil|].
      left. rewrite Herr', calls_app, log_types_app, Hlogs', fmap_app, Hcalls'.
      cbn. rewrite app_nil_r, <- app_assoc. done.
    + wp_go; try right; unfold spoiled in *; wp_simpl;
        rewrite ?Forall_app; tauto.
  - by intros.
Qed.

(** X13. On a saga that is not aborted, has no error yet and an empty
    record, and whose steps up to [i] hold functions that the engine can
    call: when, in the run of [Play], the store answers nil to every append,
    the forward calls of the steps before [i] return a nil error and that of
    step [i] the error [e], the values that a forward call returns besides
    its last fit the parameters of the step's compensating function, and
    every compensating call returns a nil error, then [Play] returns the
    error of step [i]; it called the forward actions of steps [0] to [i],
    once each and in order, then the compensating functions of steps [i]
    down to [0], once each; and it emitted StartSaga, one StepExec per
    executed step, SagaAbort, one StepCompensate per executed step,
    SagaComplete. *)
Lemma Play_unwinds m i e :
  aborted (saga m) = false → err (saga m) = None → trace m = [] →
  returnedValuesFromFunc (saga m) = [] → toCompensate (saga m) = [] →
  i < length (steps (saga m)) →
  (∀ j st, j ≤ i → steps (saga m) !! j = Some st → callable_step st) →
  (∀ l r, EvAppend l r ∈ trace (Play m).2 → r = None) →
  (∀ j f params results,
     EvCall (Forward j) f params results ∈ trace (Play m).2 →
     j < i → isReturnError results = Returned None) →
  (∀ f params results,
     EvCall (Forward i) f params results ∈ trace (Play m).2 →
     isReturnError results = Returned (Some e)) →
  (∀ j f params results st g,
     EvCall (Forward j) f params results ∈ trace (Play m).2 →
     steps (saga m) !! j = Some st → CompensateFunc st = ObjFunc g →
     fn_in g = TContext :: (type_of <$> outputs results)) →
  (∀ j g params results,
     EvCall (Compensate j) g params results ∈ trace (Play m).2 →
     isReturnError results = Returned None) →
  ∃ m', Play m = (Returned {| Err := Some e |}, m') ∧
    Some <$> calls (trace m') =
      imap forward_call (take (Datatypes.S i) (steps (saga m))) ++
      reverse (imap compensate_call (take (Datatypes.S i) (steps (saga m)))) ∧
    log_types (trace m') =
      LogTypeStartSaga :: replicate (Datatypes.S i) LogTypeSagaStepExec ++
      LogTypeSagaAbort :: replicate (Datatypes.S i) LogTypeSagaStepCompensate ++
      [LogTypeSagaComplete].
Proof.
  intros Hab Herr Htr Hrv Htc Hi Hcall Hstore Hbefore Hat Hfits Hcomp.
  assert (Hok : Forall (unwinds_well (steps (saga m)) i e) (trace (Play m).2)).
  { apply Forall_forall. intros [l r | [j|j] f ps rs] Hin; cbn; eauto.
    split_and!; [eauto | intros ->; eauto | eauto]. }
  pose proof (Play_unwinds_checked m i e Hab Herr Htr Hrv Htc Hi Hcall) as Hwp.
  unfold wp in Hwp. destruct (Play m) as [[r|p] m']; cbn in Hok; [|done].
  destruct Hwp as [(-> & Hcalls & Hlogs) | Hsp]; [|done].
  by exists m'.
Qed.

End Unwind.

(** ** The scenarios of the tests *)

Section Scenarios.

(** [TestSuccessfullyExecTwoSteps]: no error, [m] and [m2] called once,
    [comp] never. *)
Example Play_two_steps_ok :
  (Play two_steps_ok).1 = Returned {| Err := None |} ∧
  world (Play two_steps_ok).2 = [1; 1; 0].
Proof. vm_compute. done. Qed.

(** [TestCompensateCalledTwiceForTwoSteps]: [m] and [m2] called once, [comp]
    twice, newest step first. *)
Example Play_second_step_fails :
  (Play second_step_fails).1 = Returned {| Err := Some "hello" |} ∧
  world (Play second_step_fails).2 = [1; 1; 2] ∧
  (calls (trace (Play second_step_fails).2)).*1 =
    [Forward 0; Forward 1; Compensate 1; Compensate 0].
Proof. vm_compute. done. Qed.

(** [TestReturnsError]: the string that the forward function returned reaches
    the compensating function. *)
Example Play_returns_error :
  (Play returns_error).1 = Returned {| Err := Some "some error" |} ∧
  invocations (trace (Play returns_error).2) =
    [(Forward 0, [VContext (ContextID 0)],
      [VString "hello"; VError (Some "some error")]);
     (Compensate 0, [VContext (ContextID 0); VString "hello"],
      [VError None])].
Proof. vm_compute. done. Qed.

(** C1, on [TestCompensateReturnsError]: the second step fails and both
    compensating functions return an error.  [Play] panics with the error of
    the first compensation it runs, that of the second step; the
    compensating function of the first step is never called, the run stops
    after one StepCompensate event, and there is no Result, so no list of
    compensation errors either. *)
Theorem compensation_error_stops_the_unwind :
  (Play compensations_fail).1 = Panicked (PanicError "compensate error 2") ∧
  invocations (trace (Play compensations_fail).2) =
    [(Forward 0, [VContext (ContextID 0)], [VError None]);
     (Forward 1, [VContext (ContextID 0)], [VError (Some "some error")]);
     (Compensate 1, [VContext (ContextID 0)],
      [VError (Some "compensate error 2")])] ∧
  log_types (trace (Play compensations_fail).2) =
    [LogTypeStartSaga; LogTypeSagaStepExec; LogTypeSagaStepExec;
     LogTypeSagaAbort; LogTypeSagaStepCompensate].
Proof. vm_compute. done. Qed.

(** C2, on three steps of which the second fails and has a compensating
    function that returns an error: the forward actions of steps 0 and 1 are
    called once and that of step 2 never, but of the compensations only that
    of step 1 is called, and the events stop after the first StepCompensate:
    no second StepCompensate and no SagaComplete. *)
Theorem failing_compensation_cuts_the_unwind_short :
  (Play middle_step_fails).1 = Panicked (PanicError "compensate error 2") ∧
  (calls (trace (Play middle_step_fails).2)).*1 =
    [Forward 0; Forward 1; Compensate 1] ∧
  log_types (trace (Play middle_step_fails).2) =
    [LogTypeStartSaga; LogTypeSagaStepExec; LogTypeSagaStepExec;
     LogTypeSagaAbort; LogTypeSagaStepCompensate].
Proof. vm_compute. done. Qed.

(** C7, on one step that fails and whose compensating function returns an
    error: [Play] does not return a Result, it panics with the error of the
    compensation. *)
Theorem Play_panics_on_compensation_error :
  (Play single_compensation_fails).1 =
    Panicked (PanicError "compensate error 1") ∧
  ∀ r : Result, (Play single_compensation_fails).1 ≠ Returned r.
Proof. vm_compute. split; [done|]. intros r Hr. discriminate Hr. Qed.

(** C4, on the first registration of [TestAddStep]: [AddStep] with a string
    as forward action returns nothing and appends the step, so the saga has
    one step; the object is only rejected when [Play] reaches it, by a
    panic. *)
Theorem AddStep_accepts_a_string :
  (AddStep hello_step new_saga).1 = Returned () ∧
  length (steps (saga new_saga)) = 0 ∧
  steps (saga (AddStep hello_step new_saga).2) = [hello_step] ∧
  (Play (AddStep hello_step new_saga).2).1 =
    Panicked (PanicLog [] "registered object must be a func").
Proof. vm_compute. done. Qed.

(** C3, as stated, fails on three runs in which no forward action returns
    an error.  On a store that refuses the third append, [Play] panics on
    the store's error after the forward action of the first step: the second
    forward action is never called and there is no Result.  On a forward
    function that takes a string besides the context, [Play] panics in the
    reflective call, which passes the context alone.  On the second
    registration of [TestAddStep], which [AddStep] takes, [Play] calls the
    forward action and then panics on the int registered as compensating
    action. *)
Lemma nil_errors_alone_do_not_complete_the_run :
  (Forall forward_succeeds (steps (saga store_breaks)) ∧
   Forall callable_step (steps (saga store_breaks)) ∧
   (Play store_breaks).1 = Panicked (PanicLog [] "log store unavailable") ∧
   (calls (trace (Play store_breaks).2)).*1 = [Forward 0] ∧
   length (steps (saga store_breaks)) = 2) ∧
  (Forall forward_succeeds (steps (saga forward_takes_string)) ∧
   (Play forward_takes_string).1 =
     Panicked (PanicRuntime "reflect: Call with mismatched arguments") ∧
   calls (trace (Play forward_takes_string).2) = []) ∧
  (Forall forward_succeeds (steps (saga int_compensation)) ∧
   (Play int_compensation).1 =
     Panicked (PanicLog [] "registered object must be a func") ∧
   invocations (trace (Play int_compensation).2) =
     [(Forward 0, [VContext (ContextID 0)], [VError None])]).
Proof.
  split_and!; try (vm_compute; done).
  - repeat constructor; intros f ps w [= <-]; reflexivity.
  - repeat constructor;
      (do 2 eexists; split_and!;
         [reflexivity | reflexivity | reflexivity | eexists; reflexivity]).
  - repeat constructor; intros f ps w [= <-]; reflexivity.
  - repeat constructor; intros f ps w [= <-]; reflexivity.
Qed.

End Scenarios.

(** ** The theorems at work on the scenarios *)

Section Witnesses.

Lemma all_steps_succeed_witness :
  ∃ m', Play succeeds_once = (Returned {| Err := None |}, m') ∧
    Some <$> calls (trace m') = imap forward_call (steps (saga succeeds_once)) ∧
    (∀ i g, (Compensate i, g) ∉ calls (trace m')) ∧
    log_types (trace m') =
      LogTypeStartSaga ::
      replicate (length (steps (saga succeeds_once))) LogTypeSagaStepExec ++
      [LogTypeSagaComplete].
Proof.
  assert (Hok : Forall went_well (trace (Play succeeds_once).2))
    by (vm_compute; repeat constructor).
  rewrite Forall_forall in Hok.
  apply (all_steps_succeed succeeds_once).
  - reflexivity.
  - reflexivity.
  - reflexivity.
  - repeat constructor;
      (do 2 eexists; split_and!;
         [reflexivity | reflexivity | reflexivity | eexists; reflexivity]).
  - intros l r Hin. exact (Hok _ Hin).
  - intros i f ps rs Hin. exact (Hok _ Hin).
Defined.

Lemma Play_unwinds_witness :
  ∃ m', Play fails_after_first = (Returned {| Err := Some "hello" |}, m') ∧
    Some <$> calls (trace m') =
      imap forward_call (take 2 (steps (saga fails_after_first))) ++
      reverse (imap compensate_call (take 2 (steps (saga fails_after_first)))) ∧
    log_types (trace m') =
      LogTypeStartSaga :: replicate 2 LogTypeSagaStepExec ++
      LogTypeSagaAbort :: replicate 2 LogTypeSagaStepCompensate ++
      [LogTypeSagaComplete].
Proof.
  assert (Hok : Forall (unwinds_well (steps (saga fails_after_first)) 1 "hello")
                  (trace (Play fails_after_first).2)).
  { vm_compute.
    repeat (apply List.Forall_cons;
            [first [reflexivity
                   | split_and!;
                     [ intros; first [reflexivity | exfalso; lia]
                     | intros; first [reflexivity | exfalso; lia]
                     | intros st g [= <-] [= <-]; reflexivity ] ]|]).
    apply List.Forall_nil. }
  rewrite Forall_forall in Hok.
  apply (Play_unwinds fails_after_first 1 "hello").
  - reflexivity.
  - reflexivity.
  - reflexivity.
  - reflexivity.
  - reflexivity.
  - cbn. lia.
  - intros [|[|j]] st Hj Hst; [| |lia]; injection Hst as <-;
      (do 2 eexists; split_and!;
         [reflexivity | reflexivity | reflexivity | eexists; reflexivity]).
  - intros l r Hin. exact (Hok _ Hin).
  - intros j f ps rs Hin Hj. by apply (Hok _ Hin).
  - intros f ps rs Hin. by apply (Hok _ Hin).
  - intros j f ps rs st g Hin. by apply (Hok _ Hin).
  - intros j g ps rs Hin. exact (Hok _ Hin).
Defined.

Lemma aborted_blocks_forward_steps_witness :
  aborted (saga aborted_saga) = true ∧
  for_ [0; 1] execStep aborted_saga = (Returned (), aborted_saga).
Proof.
  split; [reflexivity|].
  apply (aborted_blocks_forward_steps aborted_saga [0; 1]). reflexivity.
Defined.

Lemma compensation_receives_forward_outputs_witness :
  ∃ st f results,
    steps (saga returns_error) !! 0 = Some st ∧
    Func st = ObjFunc f ∧ CompensateFunc st = ObjFunc takes_string_fn ∧
    EvCall (Forward 0) f [VContext (ctx (saga returns_error))] results
      ∈ trace (Play returns_error).2 ∧
    [VContext (ContextID 0); VString "hello"] =
      VContext (ctx (saga returns_error)) :: outputs results ∧
    ∀ outs e, results = outs ++ [e] →
              [VContext (ContextID 0); VString "hello"] =
                VContext (ctx (saga returns_error)) :: outs.
Proof.
  apply (compensation_receives_forward_outputs returns_error
           0 takes_string_fn [VContext (ContextID 0); VString "hello"]
           [VError None] eq_refl eq_refl eq_refl).
  apply (list_elem_of_lookup_2 _ 5). reflexivity.
Defined.

Lemma store_failure_aborts_the_run_witness :
  (Play store_breaks).1 = Panicked (PanicLog [] "log store unavailable").
Proof.
  apply (store_failure_aborts_the_run store_breaks
           (take 3 (trace (Play store_breaks).2))
           {| Log_ExecutionID := "aaaaaaaaaa"; Log_Name := "hello"; Time := 2;
              Log_Type := LogTypeSagaStepExec; StepNumber := Some 1;
              StepName := Some "second" |}
           "log store unavailable" []).
  vm_compute. reflexivity.
Defined.

Lemma zero_results_count_as_success_witness :
  quiet returns_nothing (execStep 0 returns_nothing).2.
Proof.
  apply (zero_results_count_as_success returns_nothing 0
           (mkStep "silent"
              (ObjFunc {| fn_in := [TContext]; fn_body := λ _ w, ([], w) |})
              (mock_f 0 None))
           {| fn_in := [TContext]; fn_body := λ _ w, ([], w) |});
    reflexivity.
Defined.

End Witnesses.

(** ** The helpers of the engine *)

Section Helpers.
Context {W : Type} {S : Type} `{!Store S}.

#[local] Abbreviation Machine := (@Machine W S).

Implicit Types (m : Machine) (st : @Step W) (f : @FuncValue W).

(** X1. [addParams] appends to [values] every element of [returned] but the
    last, in order: with results [outs ++ [lastv]] it yields
    [values ++ outs], so a sole result adds nothing, and so does an empty
    result list. *)
Theorem addParams_appends_all_but_last
    (values outs : list Value) (lastv : Value) :
  addParams values (outs ++ [lastv]) = values ++ outs ∧
  addParams values [lastv] = values ∧
  addParams values [] = values.
Proof.
  split_and!.
  - by rewrite addParams_outputs, outputs_snoc.
  - reflexivity.
  - reflexivity.
Qed.

Lemma last_lookup_snoc (outs : list Value) (v : Value) :
  (outs ++ [v]) !! (length (outs ++ [v]) - 1) = Some v.
Proof.
  rewrite length_app. cbn.
  replace (length outs + 1 - 1) with (length outs) by lia.
  by rewrite list_lookup_middle.
Qed.

Lemma isReturnError_snoc (outs : list Value) (v : Value) :
  isReturnError (outs ++ [v]) = isReturnError [v].
Proof.
  unfold isReturnError. rewrite last_lookup_snoc.
  rewrite bool_decide_true by (rewrite length_app; cbn; lia).
  reflexivity.
Qed.

(** X2. [isReturnError] looks at the last result only, whatever comes before
    it: a last result of type error is returned as it is, nil or not; a nil
    pointer counts as no error; a last result that cannot be nil (an int, a
    string) makes [IsNil] panic, and a non-nil value that is no error makes
    the type assertion panic. *)
Theorem isReturnError_reads_the_last_result (outs : list Value) :
  (∀ e, isReturnError (outs ++ [VError e]) = Returned e) ∧
  isReturnError (outs ++ [VPtr None]) = Returned None ∧
  (∀ n, ∃ p, isReturnError (outs ++ [VInt n]) = Panicked p) ∧
  (∀ s, ∃ p, isReturnError (outs ++ [VString s]) = Panicked p) ∧
  (∀ a, ∃ p, isReturnError (outs ++ [VPtr (Some a)]) = Panicked p).
Proof.
  split_and!; intros; rewrite isReturnError_snoc.
  - by destruct e.
  - reflexivity.
  - by eexists.
  - by eexists.
  - by eexists.
Qed.

(** X3. [getFuncValue] never changes the saga; it returns a function exactly
    when the object is a function whose first parameter is the context, and
    then it returns that function; in every other case it panics through
    [checkErr].  The results of the function are not looked at. *)
Theorem getFuncValue_accepts_context_functions (obj : @Obj W) m :
  (getFuncValue obj m).2 = m ∧
  (∀ f, (getFuncValue obj m).1 = Returned f ↔
        obj = ObjFunc f ∧ takes_context_first f) ∧
  ((∀ f, (getFuncValue obj m).1 ≠ Returned f) →
   ∃ e, (getFuncValue obj m).1 = Panicked (PanicLog [] e)).
Proof.
  destruct obj as [| | |g]; cbn.
  1-3: split_and!; [done | intros f; split; [done | by intros [? _]] | by eexists].
  unfold getFuncValue, mbind, M_bind, takes_context_first.
  destruct (fn_in g) as [|[] rest] eqn:Hin; cbn.
  all: split_and!; [done | | ].
  all: try (intros f; split; [done | intros [[= <-] [r Hr]]; congruence]).
  all: try (intros _; by eexists).
  - intros f. split.
    + intros [= <-]. split; [done|]. by exists rest.
    + by intros [[= <-] _].
  - intros Hno. by destruct (Hno g).
Qed.

Lemma foldl_AddStep (sts : list (@Step W)) m :
  foldl (λ m' st, (AddStep st m').2) m sts =
  {| saga := set_steps (steps (saga m) ++ sts) (saga m);
     world := world m; clock := clock m; trace := trace m |}.
Proof.
  revert m. induction sts as [|st sts IH]; intros m.
  - cbn. rewrite app_nil_r. by destruct m as [[] ? ? ?].
  - cbn [foldl]. rewrite IH. cbn. by rewrite <- app_assoc.
Qed.

(** X4. [AddStep] keeps the registration order and touches nothing but the
    step list: after registering the steps [sts] one after the other, the
    saga holds its earlier steps followed by [sts], and the rest of the
    saga, the world and the trace are as before. *)
Theorem AddStep_registers_in_order (sts : list (@Step W)) m :
  foldl (λ m' st, (AddStep st m').2) m sts =
  {| saga := set_steps (steps (saga m) ++ sts) (saga m);
     world := world m; clock := clock m; trace := trace m |}.
Proof. apply foldl_AddStep. Qed.

End Helpers.

Lemma length_string_of_list (l : list Ascii.ascii) :
  String.length (String.string_of_list_ascii l) = length l.
Proof. induction l as [|ch l IH]; cbn; [done | by rewrite IH]. Qed.

(** X5. [RandString] returns ten characters, each one a letter of the
    alphabet of the function, whatever the random source draws. *)
Theorem RandString_ten_letters (Intn : nat → nat) :
  String.length (RandString Intn) = 10 ∧
  Forall (λ ch, ch ∈ letters) (String.list_ascii_of_string (RandString Intn)).
Proof.
  unfold RandString.
  rewrite String.list_ascii_of_string_of_list_ascii.
  split.
  - by rewrite length_string_of_list, length_fmap, length_seq.
  - apply Forall_fmap, Forall_forall. intros k _. cbn beta.
    apply list_elem_of_In, nth_In.
    apply Nat.mod_upper_bound. by vm_compute.
Qed.

Section Construction.
Context {W : Type} {S : Type} `{!Store S}.

(** X16. A saga made by [NewSaga] and filled by [AddStep] is ready for
    [Play]: it holds the registered steps in order, the context, the name
    and the store it was made with, an identifier of ten letters, it is not
    aborted, has no error, and its execution record is empty. *)
Theorem NewSaga_then_AddStep_is_fresh
    (c : context_Context) (name : string) (store : S) (Intn : nat → nat)
    (sts : list (@Step W)) (w : W) (t0 : nat) :
  let m := foldl (λ m' st, (AddStep st m').2)
                 (boot (NewSaga c name store Intn) w t0) sts in
  steps (saga m) = sts ∧
  ctx (saga m) = c ∧ Name (saga m) = name ∧ logStore (saga m) = store ∧
  String.length (ExecutionID (saga m)) = 10 ∧
  aborted (saga m) = false ∧ err (saga m) = None ∧
  returnedValuesFromFunc (saga m) = [] ∧ toCompensate (saga m) = [] ∧
  trace m = [].
Proof.
  cbn zeta. rewrite foldl_AddStep. cbn [saga trace boot].
  unfold NewSaga, set_steps. cbn [steps ctx Name logStore ExecutionID aborted
    err returnedValuesFromFunc toCompensate app].
  by split_and!.
Qed.

End Construction.

(** ** The script of a run *)

Section Script.
Context {W : Type} {S : Type} `{!Store S}.

#[local] Abbreviation Machine := (@Machine W S).

Implicit Types (m : Machine) (t : list (@Event W)).

Lemma kinds_app t1 t2 : kinds (t1 ++ t2) = kinds t1 ++ kinds t2.
Proof. apply fmap_app. Qed.

Lemma exec_pairs_S i : exec_pairs (Datatypes.S i) = exec_pairs i ++ exec_pair i.
Proof.
  unfold exec_pairs. by rewrite seq_S, bind_app, bind_singleton.
Qed.

Lemma comp_pairs_step b a :
  b < a → comp_pairs b a = comp_pairs (Datatypes.S b) a ++ comp_pair b.
Proof.
  intros Hlt. unfold comp_pairs.
  replace (a - b) with (Datatypes.S (a - Datatypes.S b)) by lia.
  cbn [seq]. by rewrite reverse_cons, bind_app, bind_singleton.
Qed.

Lemma comp_pairs_full a : comp_pairs a a = [].
Proof. unfold comp_pairs. by rewrite Nat.sub_diag. Qed.

Lemma comp_pairs_split b a :
  b ≤ a → comp_pairs 0 a = comp_pairs b a ++ comp_pairs 0 b.
Proof.
  intros Hle. unfold comp_pairs. rewrite !Nat.sub_0_r.
  replace a with (b + (a - b)) at 1 by lia.
  by rewrite seq_app, reverse_app, bind_app.
Qed.

(** Closes a leaf of a symbolic run: the kinds of the trace are those of the
    earlier trace followed by a beginning of the expected events. *)
Ltac script_leaf :=
  wp_simpl; rewrite ?kinds_app; cbn [kinds fmap list_fmap kind_of Log_Type StepNumber];
  rewrite <- ?app_assoc; cbn [app];
  first
    [ split; [reflexivity | by split_and!]
    | eexists; split; [reflexivity | by eexists]
    | eexists; split; [symmetry; apply app_nil_r | apply prefix_nil] ].

Lemma compensateStep_adds j m :
  wp (compensateStep j)
     (λ _ m', kinds (trace m') = kinds (trace m) ++ comp_pair j ∧
              same_saga m m')
     (λ _ m', ∃ evs, kinds (trace m') = kinds (trace m) ++ evs ∧
                     evs `prefix_of` comp_pair j) m.
Proof.
  unfold compensateStep, comp_pair. wp_go; script_leaf.
Qed.

Lemma same_saga_trans m1 m2 m3 :
  same_saga m1 m2 → same_saga m2 m3 → same_saga m1 m3.
Proof.
  intros (? & ? & ? & ? & ? & ?) (? & ? & ? & ? & ? & ?).
  unfold same_saga. split_and!; congruence.
Qed.

(** The loop of [abort] over the entries below [b], after the compensations
    of the entries from [b] up to [a - 1]. *)
Lemma unwind_adds a b : ∀ m K,
  b ≤ a →
  kinds (trace m) = K ++ comp_pairs b a →
  wp (for_ (reverse (seq 0 b)) compensateStep)
     (λ _ m', kinds (trace m') = K ++ comp_pairs 0 a ∧ same_saga m m')
     (λ _ m', ∃ evs, kinds (trace m') = K ++ evs ∧
                     evs `prefix_of` comp_pairs 0 a) m.
Proof.
  induction b as [|b IH]; intros m K Hle Hk.
  - unfold wp. cbn. split; [done | by split_and!].
  - rewrite seq_S, reverse_snoc. cbn [for_ plus]. rewrite wp_bind.
    eapply wp_mono; [apply compensateStep_adds | |].
    + intros [] m1 [Hk1 Hsame1]. cbn beta.
      eapply wp_mono; [apply (IH m1 K) | |].
      * lia.
      * rewrite Hk1, Hk, <- app_assoc. f_equal. symmetry.
        apply comp_pairs_step. lia.
      * intros [] m2 [Hk2 Hsame2]. split; [done|].
        by apply (same_saga_trans m m1 m2).
      * by intros.
    + intros p m1 (evs & Hk1 & Hpre). cbn beta.
      exists (comp_pairs (Datatypes.S b) a ++ evs). split.
      * by rewrite Hk1, Hk, <- app_assoc.
      * rewrite (comp_pairs_split b a) by lia.
        apply prefix_app_r. rewrite (comp_pairs_step b a) by lia.
        by apply prefix_app.
Qed.

Lemma abort_adds m :
  wp abort
     (λ _ m', kinds (trace m') =
                kinds (trace m) ++
                unwind_script (length (toCompensate (saga m))) ∧
              aborted (saga m') = true ∧ err (saga m') = err (saga m))
     (λ _ m', ∃ evs, kinds (trace m') = kinds (trace m) ++ evs ∧
                     evs `prefix_of`
                       unwind_script (length (toCompensate (saga m)))) m.
Proof.
  unfold abort, unwind_script. wp_go; try script_leaf.
  set (a := length (toCompensate (saga m))).
  eapply wp_mono;
    [apply (unwind_adds a a _
              (kinds (trace m) ++ [KLog LogTypeSagaAbort (Some a)])) | |].
  - done.
  - wp_simpl. rewrite kinds_app, comp_pairs_full, app_nil_r. done.
  - intros [] m' [Hk (_ & _ & _ & _ & Hab & Herr)]. cbn beta.
    wp_simpl. rewrite Hk, <- app_assoc. done.
  - intros p m' (evs & Hk & Hpre). cbn beta.
    exists (KLog LogTypeSagaAbort (Some a) :: evs). split.
    + by rewrite Hk, <- app_assoc.
    + by apply prefix_cons.
Qed.

Lemma execStep_adds i m :
  aborted (saga m) = false →
  wp (execStep i)
     (λ _ m',
        (aborted (saga m') = false ∧ err (saga m') = err (saga m) ∧
         length (toCompensate (saga m')) =
           Datatypes.S (length (toCompensate (saga m))) ∧
         kinds (trace m') = kinds (trace m) ++ exec_pair i) ∨
        (aborted (saga m') = true ∧ (∃ e, err (saga m') = Some e) ∧
         kinds (trace m') =
           kinds (trace m) ++ exec_pair i ++
           unwind_script (Datatypes.S (length (toCompensate (saga m))))))
     (λ _ m', ∃ evs, kinds (trace m') = kinds (trace m) ++ evs ∧
                     evs `prefix_of`
                       exec_pair i ++
                       unwind_script
                         (Datatypes.S (length (toCompensate (saga m))))) m.
Proof.
  intros Hab. unfold execStep, exec_pair. wp_exec. rewrite Hab.
  wp_go.
  all: try (wp_simpl; rewrite ?kinds_app;
            cbn [kinds fmap list_fmap kind_of Log_Type StepNumber];
            rewrite <- ?app_assoc; cbn [app]).
  all: try (eexists; split; [reflexivity | by eexists]).
  all: try (eexists; split; [symmetry; apply app_nil_r | apply prefix_nil]).
  - (* the step failed: abort *)
    eapply wp_mono; [apply abort_adds | |].
    + intros [] m' (Hk & Hab' & Herr'). cbn beta. right.
      wp_simpl. rewrite length_app, Nat.add_1_r in Hk.
      rewrite Hk, !kinds_app. cbn [kinds fmap list_fmap kind_of Log_Type StepNumber].
      rewrite <- !app_assoc. cbn [app].
      split_and!; [done | by eexists | done].
    + intros p m' (evs & Hk & Hpre). cbn beta.
      wp_simpl. rewrite length_app, Nat.add_1_r in Hpre.
      eexists. split.
      * rewrite Hk, !kinds_app. cbn [kinds fmap list_fmap kind_of Log_Type StepNumber].
        rewrite <- !app_assoc. cbn [app]. reflexivity.
      * by do 2 apply prefix_cons.
  - (* the step went through *)
    left. rewrite length_app, Nat.add_1_r. by split_and!.
Qed.

Lemma execStep_phase n i m :
  i < n →
  play_phase i m →
  wp (execStep i) (λ _, play_phase (Datatypes.S i)) (λ _, cut_short n) m.
Proof.
  intros Hi [(Hab & Herr & Hlen & Hk) | (Hab & a & e & Ha & Herr & Hk)].
  - eapply wp_mono; [apply (execStep_adds i m Hab) | |].
    + intros [] m' [(Hab' & Herr' & Hlen' & Hk') | (Hab' & [e He] & Hk')];
        cbn beta.
      * left. rewrite Hk', Hk, Hlen', Hlen, Herr', exec_pairs_S.
        by split_and!.
      * right. split; [done|]. exists (Datatypes.S i), e.
        rewrite Hk', Hk, Hlen, exec_pairs_S, <- !app_assoc.
        split_and!; try done; lia.
    + intros p m' (evs & Hk' & Hpre). cbn beta. right.
      exists (Datatypes.S i). split; [lia|].
      rewrite Hk', Hk. unfold script_abort.
      rewrite exec_pairs_S, <- !app_assoc. cbn [app].
      apply prefix_cons, prefix_app. rewrite Hlen in Hpre.
      rewrite app_assoc. by apply prefix_app_r.
  - unfold wp. rewrite (execStep_aborted i m Hab).
    right. split; [done|]. exists a, e. split_and!; try done; lia.
Qed.

(** X6. Every run of [Play] on a saga that is not aborted, has no error, an
    empty record and an empty trace follows one of two scripts.  When [Play]
    returns without error, the events are StartSaga, then for each step in
    order its StepExec event and its forward call, then SagaComplete.  When
    it returns an error, the events are StartSaga, the same pairs for the
    steps up to the failed one, SagaAbort carrying their number, then for
    each of these steps, newest first, its StepCompensate event and its
    compensating call, then SagaComplete.  When it panics, the events are a
    beginning of one of these two sequences. *)
Theorem Play_follows_a_script m :
  aborted (saga m) = false → err (saga m) = None →
  toCompensate (saga m) = [] → trace m = [] →
  match (Play m).1 with
  | Returned r =>
      (Err r = None ∧
       kinds (trace (Play m).2) = script_ok (length (steps (saga m)))) ∨
      (∃ a e, 0 < a ≤ length (steps (saga m)) ∧ Err r = Some e ∧
              kinds (trace (Play m).2) = script_abort a)
  | Panicked _ => cut_short (length (steps (saga m))) (Play m).2
  end.
Proof.
  intros Hab Herr Htc Htr.
  set (n := length (steps (saga m))).
  assert (Hwp : wp Play
     (λ r m', (Err r = None ∧ kinds (trace m') = script_ok n) ∨
              (∃ a e, 0 < a ≤ n ∧ Err r = Some e ∧
                      kinds (trace m') = script_abort a))
     (λ _, cut_short n) m).
  { unfold Play. wp_go.
    { left. wp_simpl. rewrite Htr. cbn. apply prefix_cons, prefix_nil. }
    eapply wp_mono; [apply (wp_for _ _ (λ pre, play_phase (length pre))) | |].
    - left. wp_simpl. rewrite Htr, Htc. by split_and!.
    - intros pre i post m' Hseq Hm'.
      apply seq_middle_index in Hseq as [-> Hlt].
      rewrite length_app, Nat.add_1_r. by apply execStep_phase.
    - intros [] m' Hm'. cbn beta. rewrite length_seq in Hm'. fold n in Hm'.
      destruct Hm' as [(Hab' & Herr' & Hlen' & Hk') |
                       (Hab' & a & e & Ha & Herr' & Hk')].
      + wp_go; unfold cut_short, script_ok; wp_simpl; rewrite kinds_app, Hk';
          cbn [kinds fmap list_fmap kind_of Log_Type StepNumber app Err].
        * by left.
        * left. by split.
      + wp_go; unfold cut_short, script_abort; wp_simpl;
          rewrite kinds_app, Hk';
          cbn [kinds fmap list_fmap kind_of Log_Type StepNumber app Err];
          rewrite <- app_assoc.
        * right. by exists a.
        * right. exists a, e. split; [exact Ha|]. by split.
    - by intros. }
  apply wp_run in Hwp. exact Hwp.
Qed.

End Script.

(** ** What a run leaves alone, and what it writes on its events *)

Section Identity.
Context {W : Type} {S : Type} `{!Store S}.

#[local] Abbreviation Machine := (@Machine W S).

Implicit Types (m : Machine).

Lemma identity_kept_refl m : identity_kept m m.
Proof.
  split_and!; try done. exists []. by rewrite app_nil_r.
Qed.

Ltac stamp :=
  cbn [stamped Log_ExecutionID Log_Name Log_Type StepNumber StepName];
  repeat match goal with
  | |- True => exact I
  | |- _ ∧ _ => split
  | |- ∃ _, _ => eexists
  | |- Some _ = Some _ => reflexivity
  | |- None = None => reflexivity
  | Hs : steps (saga ?m) = steps (saga ?m0)
    |- steps (saga ?m0) !! _ = Some _ => rewrite <- Hs; eassumption
  | |- Func _ = ObjFunc _ => eassumption
  | |- _ = _ => congruence
  end.

Ltac identity_leaf :=
  match goal with
  | H : identity_kept _ _ |- identity_kept _ _ =>
      let Hid := fresh "Hid" in
      let Hn := fresh "Hn" in
      let Hs := fresh "Hs" in
      let Hc := fresh "Hc" in
      let evs := fresh "evs" in
      let Ht := fresh "Ht" in
      let Hall := fresh "Hall" in
      destruct H as (Hid & Hn & Hs & Hc & evs & Ht & Hall);
      split_and!; wp_simpl; try assumption;
      rewrite Ht, <- ?app_assoc;
      eexists; split; [reflexivity|];
      rewrite ?Forall_app; split_and?; try exact Hall;
      repeat (apply List.Forall_cons; [stamp|]);
      apply List.Forall_nil
  end.

Lemma compensateStep_identity m0 i m :
  identity_kept m0 m →
  wp (compensateStep i) (λ _, identity_kept m0) (λ _, identity_kept m0) m.
Proof.
  intros Hinv. unfold compensateStep. wp_go; identity_leaf.
Qed.

Lemma abort_identity m0 m :
  identity_kept m0 m →
  wp abort (λ _, identity_kept m0) (λ _, identity_kept m0) m.
Proof.
  intros Hinv. unfold abort. wp_go; try identity_leaf.
  apply (wp_for _ _ (λ _, identity_kept m0)); [identity_leaf|].
  intros pre i post m' _ Hm'. by apply compensateStep_identity.
Qed.

Lemma execStep_identity m0 i m :
  identity_kept m0 m →
  wp (execStep i) (λ _, identity_kept m0) (λ _, identity_kept m0) m.
Proof.
  intros Hinv. unfold execStep. wp_go; try identity_leaf.
  all: apply abort_identity; identity_leaf.
Qed.

Lemma Play_identity m0 m :
  identity_kept m0 m →
  wp Play (λ _, identity_kept m0) (λ _, identity_kept m0) m.
Proof.
  intros Hinv. unfold Play. wp_go; try identity_leaf.
  eapply wp_mono;
    [apply (wp_for _ _ (λ _, identity_kept m0)); [identity_leaf|] | |].
  - intros pre i post m' _ Hm'. by apply execStep_identity.
  - intros [] m' Hm'. cbn beta. wp_go; identity_leaf.
  - auto.
Qed.

Lemma Play_identity_kept m : identity_kept m (Play m).2.
Proof.
  pose proof (wp_run _ _ _ _ (Play_identity m m (identity_kept_refl m)))
    as Hrun.
  destruct (Play m).1; exact Hrun.
Qed.

(** X7. [Play] never changes what identifies the saga: whatever the run
    leads to, the execution identifier, the name, the registered steps and
    the context are afterwards what they were before. *)
Theorem Play_keeps_the_saga_identity m :
  ExecutionID (saga (Play m).2) = ExecutionID (saga m) ∧
  Name (saga (Play m).2) = Name (saga m) ∧
  steps (saga (Play m).2) = steps (saga m) ∧
  ctx (saga (Play m).2) = ctx (saga m).
Proof.
  destruct (Play_identity_kept m) as (? & ? & ? & ? & _). by split_and!.
Qed.

(** X8. Every event that a run of [Play] hands to the store carries the
    execution identifier and the name of the saga.  A StepExec or
    StepCompensate event carries the index of a registered step and that
    step's name; the SagaAbort event carries a number of steps and no name;
    StartSaga and SagaComplete carry neither.  And the function called at a
    forward site [i] is the forward action registered for step [i]. *)
Theorem Play_stamps_every_event m :
  ∃ evs, trace (Play m).2 = trace m ++ evs ∧
    (∀ l r, EvAppend l r ∈ evs →
       Log_ExecutionID l = ExecutionID (saga m) ∧
       Log_Name l = Name (saga m) ∧
       match Log_Type l with
       | LogTypeSagaStepExec | LogTypeSagaStepCompensate =>
           ∃ i st, StepNumber l = Some i ∧ steps (saga m) !! i = Some st ∧
                   StepName l = Some (Step_Name st)
       | LogTypeSagaAbort => (∃ k, StepNumber l = Some k) ∧ StepName l = None
       | LogTypeStartSaga | LogTypeSagaComplete =>
           StepNumber l = None ∧ StepName l = None
       end) ∧
    (∀ i f params results,
       EvCall (Forward i) f params results ∈ evs →
       ∃ st, steps (saga m) !! i = Some st ∧ Func st = ObjFunc f).
Proof.
  destruct (Play_identity_kept m) as (_ & _ & _ & _ & evs & Ht & Hall).
  exists evs. split; [exact Ht|].
  rewrite Forall_forall in Hall. split.
  - intros l r Hin. exact (Hall _ Hin).
  - intros i f params results Hin. exact (Hall _ Hin).
Qed.

End Identity.

(** ** What reaches the store *)

Section StoreContent.
Context {W : Type} {S : Type} `{!Store S}.

#[local] Abbreviation Machine := (@Machine W S).

Implicit Types (m : Machine).

Lemma store_follows_refl m : store_follows m m.
Proof. exists []. by rewrite app_nil_r. Qed.

Lemma emitted_app (t1 t2 : list (@Event W)) :
  emitted (t1 ++ t2) = emitted t1 ++ emitted t2.
Proof. apply omap_app. Qed.

Lemma fed_app (st : S) (l1 l2 : list Log) :
  fed st (l1 ++ l2) = fed (fed st l1) l2.
Proof. apply foldl_app. Qed.

Ltac store_leaf :=
  match goal with
  | H : store_follows _ _ |- store_follows _ _ =>
      let evs := fresh "evs" in
      let Ht := fresh "Ht" in
      let Hst := fresh "Hst" in
      destruct H as (evs & Ht & Hst);
      eexists; wp_simpl; split;
        [ rewrite Ht, <- ?app_assoc; reflexivity
        | rewrite ?emitted_app, ?fed_app, <- Hst; cbn;
          repeat match goal with
                 | HA : AppendLog _ _ = _ |- _ => rewrite HA
                 end;
          reflexivity ]
  end.

Lemma compensateStep_store m0 i m :
  store_follows m0 m →
  wp (compensateStep i) (λ _, store_follows m0) (λ _, store_follows m0) m.
Proof.
  intros Hinv. unfold compensateStep. wp_go; store_leaf.
Qed.

Lemma abort_store m0 m :
  store_follows m0 m →
  wp abort (λ _, store_follows m0) (λ _, store_follows m0) m.
Proof.
  intros Hinv. unfold abort. wp_go; try store_leaf.
  apply (wp_for _ _ (λ _, store_follows m0)); [store_leaf|].
  intros pre i post m' _ Hm'. by apply compensateStep_store.
Qed.

Lemma execStep_store m0 i m :
  store_follows m0 m →
  wp (execStep i) (λ _, store_follows m0) (λ _, store_follows m0) m.
Proof.
  intros Hinv. unfold execStep. wp_go; try store_leaf.
  all: apply abort_store; store_leaf.
Qed.

Lemma Play_store m0 m :
  store_follows m0 m →
  wp Play (λ _, store_follows m0) (λ _, store_follows m0) m.
Proof.
  intros Hinv. unfold Play. wp_go; try store_leaf.
  eapply wp_mono;
    [apply (wp_for _ _ (λ _, store_follows m0)); [store_leaf|] | |].
  - intros pre i post m' _ Hm'. by apply execStep_store.
  - intros [] m' Hm'. cbn beta. wp_go; store_leaf.
  - auto.
Qed.

(** X9. The store of the saga after a run of [Play], whatever the run leads
    to, is the store before the run after it took, one after the other and
    in the order of the trace, the events that the run emitted: every
    emitted event reaches the store once, and nothing else is written. *)
Theorem Play_feeds_the_store_in_order m :
  ∃ evs, trace (Play m).2 = trace m ++ evs ∧
    logStore (saga (Play m).2) =
      foldl (λ st l, (AppendLog l st).2) (logStore (saga m)) (emitted evs).
Proof.
  pose proof (wp_run _ _ _ _ (Play_store m m (store_follows_refl m))) as Hrun.
  destruct (Play m).1; exact Hrun.
Qed.

End StoreContent.

(** ** What reaches the world *)

Section WorldEffects.
Context {W : Type} {S : Type} `{!Store S}.

#[local] Abbreviation Machine := (@Machine W S).

Implicit Types (m : Machine).

Lemma world_follows_refl m : world_follows m m.
Proof. exists []. by rewrite app_nil_r. Qed.

Ltac world_leaf :=
  match goal with
  | H : world_follows _ _ |- world_follows _ _ =>
      let evs := fresh "evs" in
      let Ht := fresh "Ht" in
      let Hw := fresh "Hw" in
      destruct H as (evs & Ht & Hw);
      eexists; wp_simpl; split;
        [ rewrite Ht, <- ?app_assoc; reflexivity
        | rewrite ?foldl_app, <- Hw; cbn [foldl call_effect];
          repeat match goal with
                 | HB : fn_body _ _ _ = _ |- _ => rewrite HB
                 end;
          reflexivity ]
  end.

Lemma compensateStep_world m0 i m :
  world_follows m0 m →
  wp (compensateStep i) (λ _, world_follows m0) (λ _, world_follows m0) m.
Proof.
  intros Hinv. unfold compensateStep. wp_go; world_leaf.
Qed.

Lemma abort_world m0 m :
  world_follows m0 m →
  wp abort (λ _, world_follows m0) (λ _, world_follows m0) m.
Proof.
  intros Hinv. unfold abort. wp_go; try world_leaf.
  apply (wp_for _ _ (λ _, world_follows m0)); [world_leaf|].
  intros pre i post m' _ Hm'. by apply compensateStep_world.
Qed.

Lemma execStep_world m0 i m :
  world_follows m0 m →
  wp (execStep i) (λ _, world_follows m0) (λ _, world_follows m0) m.
Proof.
  intros Hinv. unfold execStep. wp_go; try world_leaf.
  all: apply abort_world; world_leaf.
Qed.

Lemma Play_world m0 m :
  world_follows m0 m →
  wp Play (λ _, world_follows m0) (λ _, world_follows m0) m.
Proof.
  intros Hinv. unfold Play. wp_go; try world_leaf.
  eapply wp_mono;
    [apply (wp_for _ _ (λ _, world_follows m0)); [world_leaf|] | |].
  - intros pre i post m' _ Hm'. by apply execStep_world.
  - intros [] m' Hm'. cbn beta. wp_go; world_leaf.
  - auto.
Qed.

(** X10. The engine acts on the world through the registered functions
    only: the world after a run of [Play], whatever the run leads to, is the
    world before the run after the calls of the trace, each function run on
    the arguments the trace shows and on the world that the call before it
    left. *)
Theorem Play_changes_the_world_by_its_calls m :
  ∃ evs, trace (Play m).2 = trace m ++ evs ∧
    world (Play m).2 = foldl call_effect (world m) evs.
Proof.
  pose proof (wp_run _ _ _ _ (Play_world m m (world_follows_refl m))) as Hrun.
  destruct (Play m).1; exact Hrun.
Qed.

End WorldEffects.

(** ** The execution record after a run *)

Section Record.
Context {W : Type} {S : Type} `{!Store S}.

#[local] Abbreviation Machine := (@Machine W S).

Implicit Types (m : Machine) (sts : list (@Step W)).

(** Closes a leaf of a symbolic run that left the record alone and added
    events other than compensating calls on foreign arguments. *)
Ltac record_leaf m :=
  first
    [ assumption
    | split;
        [ apply (record_in_step_trace _ _ m); try done;
          wp_simpl; intros ev Hev; by repeat apply elem_of_snoc_l
        | first [ assumption
                | by repeat apply round_trip_snoc
                | by apply round_trip_compensateStep ] ] ].

Lemma compensateStep_record sts c i m :
  unwinding sts c m →
  wp (compensateStep i)
     (λ _ m', unwinding sts c m' ∧ aborted (saga m') = aborted (saga m))
     (λ _, unwinding sts c) m.
Proof.
  intros Hinv. pose proof Hinv as [Hrec Hrt].
  unfold compensateStep. wp_go;
    first [ record_leaf m | split; [record_leaf m | reflexivity] ].
Qed.

Lemma abort_record sts c m :
  unwinding sts c m →
  wp abort
     (λ _ m', unwinding sts c m' ∧ aborted (saga m') = true)
     (λ _, unwinding sts c) m.
Proof.
  intros Hinv. pose proof Hinv as [Hrec Hrt].
  unfold abort. wp_go; try record_leaf m.
  apply (wp_for _ _ (λ _ m', unwinding sts c m' ∧ aborted (saga m') = true)).
  - split; [record_leaf m | reflexivity].
  - intros pre i post m' _ [Hm' Hab].
    eapply wp_mono; [by apply compensateStep_record | | by intros].
    intros [] m'' [? Hab']. cbn beta. split; [done|]. by rewrite Hab'.
Qed.

Lemma execStep_record sts c i m :
  running sts c i m →
  wp (execStep i) (λ _, running sts c (Datatypes.S i)) (λ _, unwinding sts c) m.
Proof.
  intros [Hinv Hlen]. pose proof Hinv as [Hrec Hrt].
  unfold execStep. wp_go; try record_leaf m.
  - split; [done|]. intros ?; congruence.
  - eapply wp_mono; [apply (abort_record sts c) | | by intros].
    + eapply (unwinding_push sts c m _ i); eauto.
    + intros [] m' [Hm' Hab]. split; [done|]. intros ?; congruence.
  - split; [eapply (unwinding_push sts c m _ i); eauto|].
    intros _. wp_simpl. rewrite length_app, Hlen by done. cbn. lia.
  - eapply (unwinding_push sts c m _ i); eauto.
Qed.

Lemma Play_record sts c m :
  running sts c 0 m →
  wp Play (λ _, unwinding sts c) (λ _, unwinding sts c) m.
Proof.
  intros [Hinv Hlen]. pose proof Hinv as [Hrec Hrt].
  unfold Play. wp_go; try record_leaf m.
  eapply wp_mono;
    [apply (wp_for _ _ (λ pre, running sts c (length pre))) | |].
  - split; [record_leaf m | done].
  - intros pre i post m' Hseq Hm'.
    apply seq_middle_index in Hseq as [-> _].
    rewrite length_app, Nat.add_1_r. by apply execStep_record.
  - intros [] m' [[Hrec' Hrt'] _]. cbn beta.
    wp_go; record_leaf m'.
  - by intros.
Qed.

(** X11. After a run of [Play] on a saga whose record and trace are empty,
    whatever the run leads to, the two slices of the execution record have
    the same length, which is at most the number of registered steps; and
    entry [k] holds the compensating function registered for step [k] and
    the results that the forward function of step [k] returned when it was
    called on the context in this run. *)
Theorem Play_keeps_the_record_aligned m :
  returnedValuesFromFunc (saga m) = [] →
  toCompensate (saga m) = [] →
  trace m = [] →
  length (toCompensate (saga (Play m).2)) =
    length (returnedValuesFromFunc (saga (Play m).2)) ∧
  length (returnedValuesFromFunc (saga (Play m).2)) ≤ length (steps (saga m)) ∧
  ∀ k rs g,
    returnedValuesFromFunc (saga (Play m).2) !! k = Some rs →
    toCompensate (saga (Play m).2) !! k = Some g →
    ∃ st f,
      steps (saga m) !! k = Some st ∧
      Func st = ObjFunc f ∧ CompensateFunc st = ObjFunc g ∧
      EvCall (Forward k) f [VContext (ctx (saga m))] rs ∈ trace (Play m).2.
Proof.
  intros Hrv Htc Htr.
  assert (Hrun : running (steps (saga m)) (ctx (saga m)) 0 m).
  { split; [split|].
    - split_and!; try done.
      + by rewrite Hrv, Htc.
      + intros k rs g' Hk. by rewrite Hrv in Hk.
    - rewrite Htr. apply round_trip_nil.
    - by rewrite Hrv. }
  pose proof (wp_run _ _ _ _ (Play_record _ _ m Hrun)) as Hfin.
  assert (Hun : unwinding (steps (saga m)) (ctx (saga m)) (Play m).2)
    by (destruct (Play m).1; exact Hfin).
  destruct Hun as [(_ & _ & Hlen & Hrec) _].
  split_and!; [done | | done].
  destruct (returnedValuesFromFunc (saga (Play m).2))
    as [|rs0 rv0 _] eqn:Hrv' using rev_ind; [cbn; lia|].
  destruct (lookup_lt_is_Some_2 (toCompensate (saga (Play m).2)) (length rv0))
    as [g Hg].
  { rewrite Hlen, length_app. cbn. lia. }
  destruct (Hrec (length rv0) rs0 g) as (st & f & Hst & _); [|done|].
  { by rewrite list_lookup_middle. }
  apply lookup_lt_Some in Hst. rewrite length_app. cbn. lia.
Qed.

End Record.

(** ** Playing a saga that is already aborted *)

Section Replay.
Context {W : Type} {S : Type} `{!Store S}.

#[local] Abbreviation Machine := (@Machine W S).

Implicit Types (m : Machine).



End Replay.

(** ** Signatures that the engine finds out too late *)

Section LateFailures.
Context {W : Type} {S : Type} `{!Store S}.

#[local] Abbreviation Machine := (@Machine W S).

Implicit Types (m : Machine) (st : @Step W) (f g : @FuncValue W).

(** X14. [execStep] looks at the compensating object of a step only after it
    has called the forward function.  When that object is not a function
    taking the context first, the forward function has run and changed the
    world, the StepExec event and the call are on the trace, and then
    [execStep] panics through [checkErr]: nothing is added to the execution
    record, the aborted flag and the error stay as they were, and no
    compensation is started. *)
Theorem invalid_compensation_is_found_after_the_forward_call
    m i st f store' res w' :
  aborted (saga m) = false →
  steps (saga m) !! i = Some st →
  Func st = ObjFunc f → takes_context_only f →
  (∀ g, CompensateFunc st = ObjFunc g → ¬ takes_context_first g) →
  AppendLog (StepExec_log (saga m) (clock m) i st) (logStore (saga m))
    = (None, store') →
  fn_body f [VContext (ctx (saga m))] (world m) = (res, w') →
  ∃ e, execStep i m =
    (Panicked (PanicLog [] e),
     {| saga := set_logStore store' (saga m);
        world := w';
        clock := Datatypes.S (clock m);
        trace := trace m ++
          [EvAppend (StepExec_log (saga m) (clock m) i st) None;
           EvCall (Forward i) f [VContext (ctx (saga m))] res] |}).
Proof.
  intros Hab Hst Hf Hfin Hbad Hlog Hbody.
  unfold StepExec_log in *. unfold takes_context_only in Hfin.
  assert (Hprefix : ∀ Q E,
    wp (execStep i) Q E m =
    wp (getFuncValue (CompensateFunc st) ≫= λ cv,
          modify_saga (λ s, set_toCompensate (toCompensate s ++ [cv]) s) ;;
          modify_saga (λ s, set_returnedValuesFromFunc
                              (returnedValuesFromFunc s ++ [res]) s) ;;
          r ← lift (isReturnError res);
          match r with
          | Some e' => modify_saga (set_err (Some e')) ;; abort
          | None => mret ()
          end) Q E
       {| saga := set_logStore store' (saga m);
          world := w';
          clock := Datatypes.S (clock m);
          trace := (trace m ++
            [EvAppend
               {| Log_ExecutionID := ExecutionID (saga m);
                  Log_Name := Name (saga m); Time := clock m;
                  Log_Type := LogTypeSagaStepExec; StepNumber := Some i;
                  StepName := Some (Step_Name st) |} None]) ++
            [EvCall (Forward i) f [VContext (ctx (saga m))] res] |}).
  { intros Q E. unfold execStep. wp_exec. rewrite Hab. wp_exec.
    rewrite Hst. wp_exec. rewrite Hlog. wp_exec.
    rewrite Hf, Hfin. wp_exec. rewrite ?Hfin. cbn [fmap list_fmap type_of].
    rewrite decide_True by reflexivity. rewrite Hbody. wp_simpl.
    reflexivity. }
  destruct (CompensateFunc st) as [| | |g] eqn:Hg.
  1-3: eexists; apply run_by_wp; rewrite Hprefix, wp_bind, wp_getFuncValue;
       rewrite <- app_assoc; reflexivity.
  destruct (fn_in g) as [|ty rest] eqn:Hin.
  - eexists. apply run_by_wp.
    rewrite Hprefix, wp_bind, wp_getFuncValue, Hin, <- app_assoc. reflexivity.
  - destruct ty;
      try (eexists; apply run_by_wp;
           rewrite Hprefix, wp_bind, wp_getFuncValue, Hin, <- app_assoc;
           reflexivity).
    destruct (Hbad g eq_refl). by exists rest.
Qed.

(** X15. [compensateStep] passes to the compensating function of entry [i]
    the context followed by the recorded outputs of the step.  When the
    parameter types of the function are not the types of these arguments,
    the StepCompensate event has been handed to the store, the function is
    not run, and [compensateStep] panics in the reflective call: the world
    and the record are as before. *)
Theorem mismatched_compensation_panics_in_the_call
    m i st rv g store' :
  steps (saga m) !! i = Some st →
  returnedValuesFromFunc (saga m) !! i = Some rv →
  toCompensate (saga m) !! i = Some g →
  AppendLog (StepCompensate_log (saga m) (clock m) i st) (logStore (saga m))
    = (None, store') →
  fn_in g ≠ TContext :: (type_of <$> outputs rv) →
  compensateStep i m =
    (Panicked (PanicRuntime "reflect: Call with mismatched arguments"),
     {| saga := set_logStore store' (saga m);
        world := world m;
        clock := Datatypes.S (clock m);
        trace := trace m ++
          [EvAppend (StepCompensate_log (saga m) (clock m) i st) None] |}).
Proof.
  intros Hst Hrv Hg Hlog Hne. unfold StepCompensate_log in *.
  apply run_by_wp. unfold compensateStep. wp_exec.
  rewrite Hst. wp_exec. rewrite Hlog. wp_exec. rewrite Hrv. wp_exec.
  rewrite Hg. wp_exec. rewrite addParams_outputs. cbn [app].
  cbn [fmap list_fmap type_of].
  rewrite decide_False by (intros Heq; by apply Hne).
  reflexivity.
Qed.

End LateFailures.

(** ** The further theorems at work on the scenarios *)

Section MoreWitnesses.

Lemma Play_follows_a_script_witness :
  match (Play second_step_fails).1 with
  | Returned r =>
      (Err r = None ∧
       kinds (trace (Play second_step_fails).2) =
         script_ok (length (steps (saga second_step_fails)))) ∨
      (∃ a e, 0 < a ≤ length (steps (saga second_step_fails)) ∧
              Err r = Some e ∧
              kinds (trace (Play second_step_fails).2) = script_abort a)
  | Panicked _ =>
      cut_short (length (steps (saga second_step_fails)))
                (Play second_step_fails).2
  end.
Proof.
  apply (Play_follows_a_script second_step_fails); reflexivity.
Defined.

Lemma Play_keeps_the_record_aligned_witness :
  length (toCompensate (saga (Play second_step_fails).2)) =
    length (returnedValuesFromFunc (saga (Play second_step_fails).2)) ∧
  length (returnedValuesFromFunc (saga (Play second_step_fails).2))
    ≤ length (steps (saga second_step_fails)) ∧
  ∀ k rs g,
    returnedValuesFromFunc (saga (Play second_step_fails).2) !! k = Some rs →
    toCompensate (saga (Play second_step_fails).2) !! k = Some g →
    ∃ st f,
      steps (saga second_step_fails) !! k = Some st ∧
      Func st = ObjFunc f ∧ CompensateFunc st = ObjFunc g ∧
      EvCall (Forward k) f [VContext (ctx (saga second_step_fails))] rs
        ∈ trace (Play second_step_fails).2.
Proof.
  apply (Play_keeps_the_record_aligned second_step_fails); reflexivity.
Defined.


Lemma invalid_compensation_witness :
  ∃ e, execStep 0 int_compensation =
    (Panicked (PanicLog [] e),
     {| saga :=
          set_logStore
            [StepExec_log (saga int_compensation) 0 0
               (mkStep "first" (mock_f 0 None) (ObjInt 25))]
            (saga int_compensation);
        world := [1];
        clock := 1;
        trace := trace int_compensation ++
          [EvAppend (StepExec_log (saga int_compensation) 0 0
                       (mkStep "first" (mock_f 0 None) (ObjInt 25))) None;
           EvCall (Forward 0)
             {| fn_in := [TContext];
                fn_body := λ _ w, ([VError None], alter Datatypes.S 0 w) |}
             [VContext (ctx (saga int_compensation))] [VError None]] |}).
Proof.
  apply (invalid_compensation_is_found_after_the_forward_call
           int_compensation 0
           (mkStep "first" (mock_f 0 None) (ObjInt 25))
           {| fn_in := [TContext];
              fn_body := λ _ w, ([VError None], alter Datatypes.S 0 w) |}
           [StepExec_log (saga int_compensation) 0 0
              (mkStep "first" (mock_f 0 None) (ObjInt 25))]
           [VError None] [1]); try reflexivity.
  intros g Hg. discriminate Hg.
Defined.

Lemma mismatched_compensation_witness :
  compensateStep 0 mismatched_compensation =
    (Panicked (PanicRuntime "reflect: Call with mismatched arguments"),
     {| saga :=
          set_logStore
            [StepCompensate_log (saga mismatched_compensation) 0 0
               (mkStep "first" returns_hello (ObjFunc context_only_fn))]
            (saga mismatched_compensation);
        world := world mismatched_compensation;
        clock := 1;
        trace := trace mismatched_compensation ++
          [EvAppend
             (StepCompensate_log (saga mismatched_compensation) 0 0
                (mkStep "first" returns_hello (ObjFunc context_only_fn)))
             None] |}).
Proof.
  apply (mismatched_compensation_panics_in_the_call
           mismatched_compensation 0
           (mkStep "first" returns_hello (ObjFunc context_only_fn))
           [VString "hello"; VError (Some "some error")]
           context_only_fn
           [StepCompensate_log (saga mismatched_compensation) 0 0
              (mkStep "first" returns_hello (ObjFunc context_only_fn))]);
    try reflexivity.
  intros Heq. discriminate Heq.
Defined.

End MoreWitnesses.
